(** * Loan repayment calculator: amortization engine and input validator

    A shallow embedding of [src/components/loan-calculator.tsx]
    ([validateForm], [calculateSchedule], the effect that triggers the
    computation and the rows of the CSV and PDF exports), together with
    the fragments of the JavaScript host the component calls: [Number],
    the arithmetic and comparison operators on numbers, [Math.pow],
    [Math.max], [toFixed] and the month and year setters of [Date].

    Numbers.  A JavaScript number is a binary64 floating-point number.
    It is modelled by its value: a rational, one of the two infinities,
    or NaN.  Every arithmetic operation computes the exact rational
    result and rounds it to the nearest binary64 number, ties to the
    even significand, with overflow to an infinity and gradual
    underflow ([round64]); [Number] rounds the decimal value of a
    literal in the same way.  The sign of zero is not modelled: the
    component never observes it (it does not divide by a zero other
    than the result of [x - 1], which is +0, and [toFixed], [Math.max]
    and the comparisons treat both zeros alike).  [Math.pow] is left to
    the implementation by ECMA-262 up to an approximation; the model
    takes the binary64 number nearest to the real power.

    Dates.  A [Date] is either invalid or a day count from 1 January
    1970, following the day arithmetic of ECMA-262 (Day, DayFromYear,
    YearFromTime, MonthFromTime, DateFromTime, MakeDay, TimeClip).  The
    time within the day is constant through the component and the local
    time zone offset is taken as zero. *)

From Stdlib Require Import ZArith QArith Qabs Qround Qpower Lqa Lia Ascii String List Bool.
From stdpp Require Import gmap strings list fin_maps.

Local Open Scope Z_scope.

(** ** JavaScript numbers *)

Module JS.

Inductive number : Type :=
  | NaN
  | PInf
  | NInf
  | Num (q : Q).

Definition zero : number := Num 0.
Definition of_Z (z : Z) : number := Num (inject_Z z).

Definition is_zero (q : Q) : bool := Qeq_bool q 0.
Definition is_pos (q : Q) : bool := negb (Qle_bool q 0).
Definition is_neg (q : Q) : bool := negb (Qle_bool 0 q).

(** *** Rounding to binary64 *)

(** The whole number [e] with [2 ^ e <= q < 2 ^ (e + 1)], for [q > 0]. *)
Definition ilog2 (q : Q) : Z :=
  let e := Z.log2 (Qnum q) - Z.log2 (Zpos (Qden q)) in
  if Qle_bool (2 ^ e) q then e else e - 1.

(** The whole number nearest to [x], the even one of two that are
    equally near. *)
Definition round_half_even (x : Q) : Z :=
  let f := Qfloor x in
  match (x - inject_Z f ?= 1 # 2)%Q with
  | Lt => f
  | Gt => f + 1
  | Eq => if Z.even f then f else f + 1
  end.

(** The exponent of the last place of a binary64 number of magnitude
    [a > 0]: 53 significant bits, and no finer than [2 ^ -1074]. *)
Definition quantum (a : Q) : Z := Z.max (ilog2 a - 52) (- 1074).

(** The Number value for [q]: the nearest binary64 number, the one with
    the even significand of two that are equally near, and an infinity
    from [2 ^ 1024] on.  [round_magnitude a] is the nearest multiple of
    the last place of [a > 0]. *)
Definition round_magnitude (a : Q) : Q :=
  inject_Z (round_half_even (a / 2 ^ quantum a)) * 2 ^ quantum a.

Definition round64 (q : Q) : number :=
  if is_zero q then Num 0
  else
    let r := round_magnitude (Qabs q) in
    if Qle_bool (2 ^ 1024) r then (if is_neg q then NInf else PInf)
    else Num (Qred (if is_neg q then - r else r)).

(** A whole multiple of [2 ^ -1074], as every finite binary64 number
    is. *)
Definition on_grid (q : Q) : Prop :=
  exists k : Z, (q == inject_Z k * 2 ^ (- 1074))%Q.

(** *** Arithmetic and comparison *)

Definition neg (a : number) : number :=
  match a with
  | NaN => NaN
  | PInf => NInf
  | NInf => PInf
  | Num q => Num (- q)
  end.

(** [a + b] *)
Definition add (a b : number) : number :=
  match a, b with
  | NaN, _ | _, NaN => NaN
  | PInf, NInf | NInf, PInf => NaN
  | PInf, _ | _, PInf => PInf
  | NInf, _ | _, NInf => NInf
  | Num x, Num y => round64 (x + y)
  end.

(** [a - b] *)
Definition sub (a b : number) : number := add a (neg b).

(** The infinity carrying the sign of [q], NaN when [q] is zero. *)
Definition inf_signed (q : Q) : number :=
  if is_zero q then NaN else if is_pos q then PInf else NInf.

(** [a * b] *)
Definition mul (a b : number) : number :=
  match a, b with
  | NaN, _ | _, NaN => NaN
  | PInf, PInf | NInf, NInf => PInf
  | PInf, NInf | NInf, PInf => NInf
  | PInf, Num y | Num y, PInf => inf_signed y
  | NInf, Num y | Num y, NInf => inf_signed (- y)
  | Num x, Num y => round64 (x * y)
  end.

(** [a / b]; a zero divisor is +0 *)
Definition div (a b : number) : number :=
  match a, b with
  | NaN, _ | _, NaN => NaN
  | (PInf | NInf), (PInf | NInf) => NaN
  | PInf, Num y => if is_neg y then NInf else PInf
  | NInf, Num y => if is_neg y then PInf else NInf
  | Num _, (PInf | NInf) => Num 0
  | Num x, Num y => if is_zero y then inf_signed x else round64 (x / y)
  end.

(** [a < b] *)
Definition lt (a b : number) : bool :=
  match a, b with
  | NaN, _ | _, NaN => false
  | _, NInf => false
  | NInf, _ => true
  | PInf, _ => false
  | Num _, PInf => true
  | Num x, Num y => negb (Qle_bool y x)
  end.

(** [a <= b] *)
Definition le (a b : number) : bool :=
  match a, b with
  | NaN, _ | _, NaN => false
  | NInf, _ => true
  | _, PInf => true
  | _, NInf => false
  | PInf, _ => false
  | Num x, Num y => Qle_bool x y
  end.

(** [a === b] on numbers *)
Definition strict_eq (a b : number) : bool :=
  match a, b with
  | PInf, PInf | NInf, NInf => true
  | Num x, Num y => Qeq_bool x y
  | _, _ => false
  end.

(** [Math.max(a, b)] *)
Definition Math_max (a b : number) : number :=
  match a, b with
  | NaN, _ | _, NaN => NaN
  | _, _ => if lt a b then b else a
  end.

(** [!x] for a number [x]: true for 0 and NaN. *)
Definition falsy (a : number) : bool :=
  match a with
  | NaN => true
  | Num q => is_zero q
  | _ => false
  end.

Definition is_integral (q : Q) : bool := Qeq_bool (inject_Z (Qfloor q)) q.

(** ToIntegerOrInfinity on a finite number: truncation towards zero. *)
Definition truncate (q : Q) : Z :=
  if Qle_bool 0 q then Qfloor q else Qceiling q.

(** *** [Math.pow]

    ECMA-262 fixes the result of [Math.pow] on NaN, the infinities and
    zero, and otherwise asks for an approximation of the real power.
    Here a whole exponent yields the exact rational power, rounded to
    binary64.  Any other binary64 exponent is [p / 2 ^ j] with [p] odd:
    for a positive base the square root is taken [j] times and the
    result raised to the power [p] by repeated squaring, every step
    rounded down to [pow_bits] significant bits, and the outcome is
    rounded to binary64.  That is the binary64 number nearest to the
    real power unless the real power lies within about [2 ^ -200] of
    the midpoint of two binary64 numbers. *)

Definition pow_bits : Z := 256.

(** [q > 0] rounded down to [pow_bits] significant bits. *)
Definition chop (q : Q) : Q :=
  let s := ilog2 q - (pow_bits - 1) in
  Qred (inject_Z (Qfloor (q / 2 ^ s)) * 2 ^ s).

(** The square root of [q > 0], rounded down, with [pow_bits] bits. *)
Definition sqrt_chop (q : Q) : Q :=
  let k := pow_bits - ilog2 q / 2 in
  Qred (inject_Z (Z.sqrt (Qfloor (q * 2 ^ (2 * k)))) * 2 ^ (- k)).

Fixpoint root2 (j : nat) (q : Q) : Q :=
  match j with
  | O => q
  | S j' => root2 j' (sqrt_chop q)
  end.

(** [chop q], or [None] once [q] has left the range in which the power
    can still round to a finite number other than 0. *)
Definition chop_in_range (q : Q) : option Q :=
  if (ilog2 q <? - 1200) || (1100 <? ilog2 q) then None else Some (chop q).

(** [y ^ p] for [y > 0], from the leading bit of [p] down. *)
Fixpoint pow_chop (y : Q) (p : positive) : option Q :=
  match p with
  | xH => Some y
  | xO p' =>
      match pow_chop y p' with
      | Some r => chop_in_range (r * r)
      | None => None
      end
  | xI p' =>
      match pow_chop y p' with
      | Some r =>
          match chop_in_range (r * r) with
          | Some r2 => chop_in_range (r2 * y)
          | None => None
          end
      | None => None
      end
  end.

(** [b ^ e] for [b > 0] and [e] not a whole number. *)
Definition pow_fractional (b e : Q) : number :=
  let e' := Qred e in
  let j := Z.to_nat (Z.log2 (Zpos (Qden e'))) in
  match pow_chop (root2 j b) (Z.to_pos (Z.abs (Qnum e'))) with
  | Some v => round64 (if is_neg e then / v else v)
  | None => if xorb (negb (Qle_bool b 1)) (is_neg e) then PInf else Num 0
  end.

Definition pow_finite (b e : Q) : number :=
  if is_integral e then round64 (b ^ Qfloor e)
  else if is_neg b then NaN
  else pow_fractional b e.

Definition is_odd_integer (q : Q) : bool :=
  is_integral q && Z.odd (Qfloor q).

(** The outcome that depends on how [|b|] compares with 1. *)
Definition by_magnitude (b : Q) (above equal below : number) : number :=
  match Qabs b ?= 1 with
  | Gt => above
  | Eq => equal
  | Lt => below
  end%Q.

Definition Math_pow (base exponent : number) : number :=
  match exponent with
  | NaN => NaN
  | Num e =>
      if is_zero e then Num 1
      else
        match base with
        | NaN => NaN
        | PInf => if is_pos e then PInf else Num 0
        | NInf =>
            if is_pos e
            then (if is_odd_integer e then NInf else PInf)
            else Num 0
        | Num b =>
            if is_zero b then (if is_pos e then Num 0 else PInf)
            else pow_finite b e
        end
  | PInf =>
      match base with
      | NaN => NaN
      | PInf | NInf => PInf
      | Num b => by_magnitude b PInf NaN (Num 0)
      end
  | NInf =>
      match base with
      | NaN => NaN
      | PInf | NInf => Num 0
      | Num b => by_magnitude b (Num 0) NaN PInf
      end
  end.

(** *** [Number(s)] on a string

    StringToNumber of ECMA-262: surrounding white space is dropped, the
    empty string is 0, then a signed decimal literal with optional
    fraction and exponent, [Infinity], or an unsigned literal in radix
    16, 8 or 2; anything else is NaN.  [StringMV] is the mathematical
    value of the literal, which [RoundMVResult] rounds to binary64.
    Only the ASCII white space characters are recognised. *)

Definition is_ws (c : ascii) : bool :=
  let n := N_of_ascii c in
  ((9 <=? n) && (n <=? 13) || (n =? 32))%N.

Fixpoint take_while (f : ascii -> bool) (cs : list ascii) : list ascii :=
  match cs with
  | c :: t => if f c then c :: take_while f t else []
  | [] => []
  end.

Fixpoint drop_while (f : ascii -> bool) (cs : list ascii) : list ascii :=
  match cs with
  | c :: t => if f c then drop_while f t else cs
  | [] => []
  end.

Definition trim (cs : list ascii) : list ascii :=
  rev (drop_while is_ws (rev (drop_while is_ws cs))).

Definition digit_val (c : ascii) : option Z :=
  let n := Z.of_N (N_of_ascii c) in
  if (48 <=? n) && (n <=? 57) then Some (n - 48)
  else if (97 <=? n) && (n <=? 102) then Some (n - 87)
  else if (65 <=? n) && (n <=? 70) then Some (n - 55)
  else None.

Definition is_digit (radix : Z) (c : ascii) : bool :=
  match digit_val c with
  | Some d => d <? radix
  | None => false
  end.

Definition digits_value (radix : Z) (ds : list ascii) : Z :=
  fold_left (fun acc c => acc * radix + default 0 (digit_val c)) ds 0.

Definition is_char (c : ascii) (a b : ascii) : bool :=
  Ascii.eqb c a || Ascii.eqb c b.

(** [m * 10 ^ k] *)
Definition scale10 (m k : Z) : Q :=
  if 0 <=? k then inject_Z (m * 10 ^ k)
  else m # Z.to_pos (10 ^ (- k)).

Definition radix_literal (radix : Z) (ds : list ascii) : number :=
  match ds with
  | [] => NaN
  | _ => if forallb (is_digit radix) ds
         then of_Z (digits_value radix ds) else NaN
  end.

Definition exponent_part (cs : list ascii) : option Z :=
  match cs with
  | [] => Some 0
  | c :: t =>
      if is_char c "e" "E" then
        let '(sign, ds) :=
          match t with
          | s :: t' =>
              if Ascii.eqb s "+" then (1, t')
              else if Ascii.eqb s "-" then (-1, t')
              else (1, t)
          | [] => (1, t)
          end in
        match ds with
        | [] => None
        | _ => if forallb (is_digit 10) ds
               then Some (sign * digits_value 10 ds) else None
        end
      else None
  end.

Definition decimal_literal (cs : list ascii) : number :=
  let ip := take_while (is_digit 10) cs in
  let r1 := drop_while (is_digit 10) cs in
  let '(fp, r2) :=
    match r1 with
    | c :: t =>
        if Ascii.eqb c "."
        then (take_while (is_digit 10) t, drop_while (is_digit 10) t)
        else ([], r1)
    | [] => ([], r1)
    end in
  match ip ++ fp with
  | [] => NaN
  | ds =>
      match exponent_part r2 with
      | Some e =>
          Num (Qred (scale10 (digits_value 10 ds) (e - Z.of_nat (length fp))))
      | None => NaN
      end
  end.

Definition unsigned_literal (cs : list ascii) : number :=
  if bool_decide (cs = list_ascii_of_string "Infinity") then PInf
  else decimal_literal cs.

(** The mathematical value of a string numeric literal, exactly. *)
Definition StringMV (s : string) : number :=
  match trim (list_ascii_of_string s) with
  | [] => Num 0
  | c :: t =>
      if Ascii.eqb c "+" then unsigned_literal t
      else if Ascii.eqb c "-" then neg (unsigned_literal t)
      else
        match c, t with
        | "0"%char, p :: ds =>
            if is_char p "x" "X" then radix_literal 16 ds
            else if is_char p "o" "O" then radix_literal 8 ds
            else if is_char p "b" "B" then radix_literal 2 ds
            else unsigned_literal (c :: t)
        | _, _ => unsigned_literal (c :: t)
        end
  end.

Definition RoundMVResult (v : number) : number :=
  match v with
  | Num q => round64 q
  | _ => v
  end.

Definition StringToNumber (s : string) : number :=
  RoundMVResult (StringMV s).

End JS.
(** ** Calendar dates *)

Module JSDate.

Definition DayFromYear (y : Z) : Z :=
  365 * (y - 1970) + (y - 1969) / 4 - (y - 1901) / 100 + (y - 1601) / 400.

Definition is_leap (y : Z) : bool :=
  (y mod 4 =? 0) && (negb (y mod 100 =? 0) || (y mod 400 =? 0)).

Definition leap_days (y : Z) : Z := if is_leap y then 1 else 0.

Definition DaysInYear (y : Z) : Z := 365 + leap_days y.

(** The largest [y] with [DayFromYear y <= d]: the estimate from the
    mean length of a year is off by at most one. *)
Definition YearFromTime (d : Z) : Z :=
  let g := 1970 + (400 * d) / 146097 in
  if DayFromYear (g + 1) <=? d then g + 1
  else if DayFromYear g <=? d then g
  else g - 1.

Definition InLeapYear (d : Z) : Z := leap_days (YearFromTime d).

Definition DayWithinYear (d : Z) : Z := d - DayFromYear (YearFromTime d).

(** The day within the year on which month [m] (0 to 11) begins. *)
Definition month_start (m leap : Z) : Z :=
  match m with
  | 0 => 0
  | 1 => 31
  | 2 => 59 + leap
  | 3 => 90 + leap
  | 4 => 120 + leap
  | 5 => 151 + leap
  | 6 => 181 + leap
  | 7 => 212 + leap
  | 8 => 243 + leap
  | 9 => 273 + leap
  | 10 => 304 + leap
  | _ => 334 + leap
  end.

Definition month_of_day (w leap : Z) : Z :=
  if w <? 31 then 0
  else if w <? 59 + leap then 1
  else if w <? 90 + leap then 2
  else if w <? 120 + leap then 3
  else if w <? 151 + leap then 4
  else if w <? 181 + leap then 5
  else if w <? 212 + leap then 6
  else if w <? 243 + leap then 7
  else if w <? 273 + leap then 8
  else if w <? 304 + leap then 9
  else if w <? 334 + leap then 10
  else 11.

Definition MonthFromTime (d : Z) : Z :=
  month_of_day (DayWithinYear d) (InLeapYear d).

Definition DateFromTime (d : Z) : Z :=
  DayWithinYear d - month_start (MonthFromTime d) (InLeapYear d) + 1.

(** [MakeDay(year, month, date)]: months beyond 0..11 carry into the
    year, and a day of the month beyond the month's length runs on into
    the following month. *)
Definition MakeDay (year month date : Z) : Z :=
  let ym := year + month / 12 in
  let mn := month mod 12 in
  DayFromYear ym + month_start mn (leap_days ym) + date - 1.

(** The days in month [m] of a year with [leap] leap days. *)
Definition month_length (m leap : Z) : Z :=
  match m with
  | 1 => 28 + leap
  | 3 | 5 | 8 | 10 => 30
  | _ => 31
  end.

(** The day on which month [m], counted from January of year [y] and
    possibly beyond December, begins. *)
Definition month_day (y m : Z) : Z := MakeDay y m 1.

(** [d] moved on by [k] months, as [setMonth(getMonth() + k)] does. *)
Definition advance (d k : Z) : Z :=
  MakeDay (YearFromTime d) (MonthFromTime d + k) (DateFromTime d).

Inductive Date : Type :=
  | InvalidDate
  | DateOf (day : Z).

Definition TimeClip (d : Z) : Date :=
  if Z.abs d <=? 100000000 then DateOf d else InvalidDate.

(** A date that is invalid or within the range of time values, as every
    date a [Date] method returns is. *)
Definition in_range (t : Date) : Prop :=
  match t with
  | InvalidDate => True
  | DateOf d => Z.abs d <= 100000000
  end.

(** [new Date(year, month, date)] with [month] counted from 0. *)
Definition civil (year month date : Z) : Date :=
  TimeClip (MakeDay year month date).

Definition getFullYear (t : Date) : JS.number :=
  match t with
  | InvalidDate => JS.NaN
  | DateOf d => JS.of_Z (YearFromTime d)
  end.

Definition getMonth (t : Date) : JS.number :=
  match t with
  | InvalidDate => JS.NaN
  | DateOf d => JS.of_Z (MonthFromTime d)
  end.

Definition getDate (t : Date) : JS.number :=
  match t with
  | InvalidDate => JS.NaN
  | DateOf d => JS.of_Z (DateFromTime d)
  end.

(** [t.setMonth(month)] *)
Definition setMonth (t : Date) (month : JS.number) : Date :=
  match t, month with
  | DateOf d, JS.Num m =>
      TimeClip (MakeDay (YearFromTime d) (JS.truncate m) (DateFromTime d))
  | _, _ => InvalidDate
  end.

(** [t.setFullYear(year)]; an invalid date is first reset to day 0. *)
Definition setFullYear (t : Date) (year : JS.number) : Date :=
  let d := match t with InvalidDate => 0 | DateOf d => d end in
  match year with
  | JS.Num y =>
      TimeClip (MakeDay (JS.truncate y) (MonthFromTime d) (DateFromTime d))
  | _ => InvalidDate
  end.

End JSDate.
(** ** The component *)

Import JS JSDate.

Module ScheduleRow.
Record t : Type := mk {
  date : Date;
  payment : number;
  interest : number;
  principal : number;
  balance : number
}.
End ScheduleRow.

Module FormData.
Record t : Type := mk {
  principal : string;
  tenure : string;
  rate : string;
  frequency : string;
  moratorium : string
}.

(** [Object.values(formData)] *)
Definition values (d : t) : list string :=
  [principal d; tenure d; rate d; frequency d; moratorium d].
End FormData.

(** The state held by the component's [useState] hooks.  [errors] is the
    [ValidationErrors] object, a map from field name to message. *)
Module State.
Record t : Type := mk {
  date : option Date;
  schedule : list ScheduleRow.t;
  loading : bool;
  errors : gmap string string;
  formData : FormData.t
}.

Definition setSchedule (v : list ScheduleRow.t) (st : t) : t :=
  mk (date st) v (loading st) (errors st) (formData st).
Definition setLoading (v : bool) (st : t) : t :=
  mk (date st) (schedule st) v (errors st) (formData st).
Definition setErrors (v : gmap string string) (st : t) : t :=
  mk (date st) (schedule st) (loading st) v (formData st).
End State.

(** The initial state of the component before a date is picked. *)
Definition initialFormData : FormData.t :=
  FormData.mk EmptyString EmptyString EmptyString "monthly" "0".

Definition initialState : State.t :=
  State.mk None [] false ∅ initialFormData.

Definition Number (s : string) : number := StringToNumber s.

(** The error object built by [validateForm]. *)
Definition newErrors (data : FormData.t) : gmap string string :=
  let e0 : gmap string string := ∅ in
  let e1 :=
    if le (Number (FormData.principal data)) zero
    then <["principal" := "Principal amount must be greater than 0"]> e0
    else e0 in
  let e2 :=
    if le (Number (FormData.tenure data)) zero
    then <["tenure" := "Tenure must be greater than 0"]> e1
    else e1 in
  let e3 :=
    if lt (Number (FormData.rate data)) zero
    then <["rate" := "Interest rate cannot be negative"]> e2
    else e2 in
  if lt (Number (FormData.moratorium data)) zero
  then <["moratorium" := "Moratorium period cannot be negative"]> e3
  else e3.

Definition validateForm (data : FormData.t) (st : State.t) : State.t * bool :=
  let errs := newErrors data in
  (State.setErrors errs st, Nat.eqb (size errs) 0).

(** The value of [{monthly: 12, ...}[frequency]]: an own property, a
    member inherited from [Object.prototype], or [undefined]. *)
Inductive value : Type :=
  | Undefined
  | NumberValue (n : number)
  | ObjectValue (name : string).

Definition periodsPerYear_table : gmap string number :=
  {[ "monthly" := of_Z 12;
     "quarterly" := of_Z 4;
     "semi-annually" := of_Z 2;
     "annually" := of_Z 1 ]}.

Definition Object_prototype_members : list string :=
  [ "constructor"; "hasOwnProperty"; "isPrototypeOf";
    "propertyIsEnumerable"; "toLocaleString"; "toString"; "valueOf";
    "__proto__"; "__defineGetter__"; "__defineSetter__";
    "__lookupGetter__"; "__lookupSetter__" ].

Definition lookup_periodsPerYear (frequency : string) : value :=
  match periodsPerYear_table !! frequency with
  | Some n => NumberValue n
  | None =>
      if bool_decide (frequency ∈ Object_prototype_members)
      then ObjectValue frequency
      else Undefined
  end.

(** [!v] *)
Definition not_value (v : value) : bool :=
  match v with
  | Undefined => true
  | NumberValue n => falsy n
  | ObjectValue _ => false
  end.

(** ToNumber: the inherited members are functions or plain objects,
    whose string form is not a numeric literal. *)
Definition ToNumber (v : value) : number :=
  match v with
  | NumberValue n => n
  | Undefined | ObjectValue _ => NaN
  end.

(** The date increment at the end of the loop body. *)
Definition increment_date (frequency : string) (currentDate : Date) : Date :=
  if bool_decide (frequency = "monthly") then
    setMonth currentDate (add (getMonth currentDate) (of_Z 1))
  else if bool_decide (frequency = "quarterly") then
    setMonth currentDate (add (getMonth currentDate) (of_Z 3))
  else if bool_decide (frequency = "semi-annually") then
    setMonth currentDate (add (getMonth currentDate) (of_Z 6))
  else
    setFullYear currentDate (add (getFullYear currentDate) (of_Z 1)).

(** [t.setMonth(t.getMonth() + k)] for a whole number [k] of months. *)
Definition addMonths (t : Date) (k : Z) : Date :=
  setMonth t (add (getMonth t) (of_Z k)).

(** The dates of [n] consecutive periods starting at [currentDate]. *)
Fixpoint dates_from (n : nat) (frequency : string) (currentDate : Date)
  : list Date :=
  match n with
  | O => []
  | S n' =>
      currentDate :: dates_from n' frequency (increment_date frequency currentDate)
  end.

Definition make_row (periodicRate emi balance : number) (currentDate : Date)
  : ScheduleRow.t * number :=
  let interest := mul balance periodicRate in
  let principal := sub emi interest in
  let balance := sub balance principal in
  (ScheduleRow.mk currentDate emi interest principal (Math_max zero balance),
   balance).

(** The most elements an array holds; [push] on an array of that
    length throws a RangeError. *)
Definition max_periods : Z := 2 ^ 32 - 1.

(** The [for] loop of [calculateSchedule].  The counter [i] is a number
    like any other, and [i++] adds 1 to it in binary64.  [fuel] bounds
    the number of times the loop condition is evaluated; the result is
    [None] when that bound is reached with the condition still true,
    and when [push] throws because the array is full: in both cases the
    function does not return. *)
Fixpoint schedule_loop (fuel : nat) (frequency : string)
    (totalPeriods periodicRate emi : number)
    (i : number) (balance : number) (currentDate : Date)
    (newSchedule : list ScheduleRow.t) : option (list ScheduleRow.t) :=
  match fuel with
  | O => None
  | S fuel' =>
      if lt i totalPeriods then
        let '(row, balance') := make_row periodicRate emi balance currentDate in
        if Z.of_nat (length newSchedule) <? max_periods then
          schedule_loop fuel' frequency totalPeriods periodicRate emi
            (add i (of_Z 1)) balance' (increment_date frequency currentDate)
            (newSchedule ++ [row])
        else None
      else Some newSchedule
  end.

Definition compute_emi (principal periodicRate totalPeriods : number) : number :=
  div (mul (mul principal periodicRate)
           (Math_pow (add (of_Z 1) periodicRate) totalPeriods))
      (sub (Math_pow (add (of_Z 1) periodicRate) totalPeriods) (of_Z 1)).

Definition calculateSchedule (fuel : nat) (st : State.t) : option State.t :=
  let '(st, ok) := validateForm (State.formData st) st in
  if negb ok then Some st
  else
    let st := State.setLoading true st in
    let formData := State.formData st in
    let principal := Number (FormData.principal formData) in
    let tenure := Number (FormData.tenure formData) in
    let rate := Number (FormData.rate formData) in
    let frequency := FormData.frequency formData in
    let moratorium := Number (FormData.moratorium formData) in
    match State.date st with
    | None => Some (State.setLoading false st)
    | Some date =>
        let periodsPerYear := lookup_periodsPerYear frequency in
        if not_value periodsPerYear then Some (State.setLoading false st)
        else
          let totalPeriods := mul tenure (ToNumber periodsPerYear) in
          let periodicRate :=
            div (div rate (of_Z 100)) (ToNumber periodsPerYear) in
          let emi := compute_emi principal periodicRate totalPeriods in
          let currentDate := setMonth date (add (getMonth date) moratorium) in
          match schedule_loop fuel frequency totalPeriods periodicRate emi
                  (of_Z 0) principal currentDate [] with
          | None => None
          | Some newSchedule =>
              Some (State.setLoading false (State.setSchedule newSchedule st))
          end
    end.

(** The effect run when [date] or [formData] changes. *)
Definition onChange (fuel : nat) (st : State.t) : option State.t :=
  match State.date st with
  | Some _ =>
      if forallb (fun s => negb (String.eqb s EmptyString))
           (FormData.values (State.formData st))
      then calculateSchedule fuel st
      else Some st
  | None => Some st
  end.

(** The rows pushed by [n] consecutive iterations of the loop body. *)
Fixpoint rows (n : nat) (frequency : string) (periodicRate emi : number)
    (balance : number) (currentDate : Date) : list ScheduleRow.t :=
  match n with
  | O => []
  | S n' =>
      let '(row, balance') := make_row periodicRate emi balance currentDate in
      row :: rows n' frequency periodicRate emi balance'
               (increment_date frequency currentDate)
  end.

(** The quantities [calculateSchedule] derives from the converted
    fields. *)
Definition periodicRate_of (r : Q) (ppy : Z) : number :=
  div (div (Num r) (of_Z 100)) (of_Z ppy).

Definition totalPeriods_of (t : Q) (ppy : Z) : number :=
  mul (Num t) (of_Z ppy).

Definition emi_of (p t r : Q) (ppy : Z) : number :=
  compute_emi (Num p) (periodicRate_of r ppy) (totalPeriods_of t ppy).

Definition first_date (date : Date) (m : Q) : Date :=
  setMonth date (add (getMonth date) (Num m)).

(** The number of loop iterations for a finite [totalPeriods]: the
    least whole number that is not below it. *)
Definition iterations (totalPeriods : number) : nat :=
  match totalPeriods with
  | Num n => Z.to_nat (Qceiling n)
  | _ => 0
  end.

Definition mkState (date : Date) (p t r f m : string) : State.t :=
  State.mk (Some date) [] false ∅ (FormData.mk p t r f m).

(** Input accepted by the validator in the sense of the data model: a
    picked date, finite numbers in the four numeric fields with
    [principal > 0], [tenure > 0], [rate >= 0], [moratorium >= 0], and
    one of the four listed frequencies, [ppy] being its number of
    periods per year.  The period count [tenure * periodsPerYear], as
    the code computes it in binary64, is moreover at most [max_periods],
    so that the schedule fits an array. *)
Record Validated (st : State.t) (date : Date) (p t r m : Q) (ppy : Z)
  : Prop := {
  v_date : State.date st = Some date;
  v_principal : Number (FormData.principal (State.formData st)) = Num p;
  v_principal_pos : (0 < p)%Q;
  v_tenure : Number (FormData.tenure (State.formData st)) = Num t;
  v_tenure_pos : (0 < t)%Q;
  v_rate : Number (FormData.rate (State.formData st)) = Num r;
  v_rate_nonneg : (0 <= r)%Q;
  v_moratorium : Number (FormData.moratorium (State.formData st)) = Num m;
  v_moratorium_nonneg : (0 <= m)%Q;
  v_frequency :
    periodsPerYear_table !! FormData.frequency (State.formData st)
    = Some (of_Z ppy);
  v_periods : le (totalPeriods_of t ppy) (of_Z max_periods) = true
}.

(** The schedule [calculateSchedule] stores for validated input. *)
Definition schedule_of (st : State.t) (date : Date) (p t r m : Q) (ppy : Z)
  : list ScheduleRow.t :=
  rows (iterations (totalPeriods_of t ppy))
       (FormData.frequency (State.formData st))
       (periodicRate_of r ppy) (emi_of p t r ppy)
       (Num p) (first_date date m).

(** The variable [balance] after one more iteration of the loop body,
    and after [n] iterations. *)
Definition next_balance (periodicRate emi balance : number) : number :=
  sub balance (sub emi (mul balance periodicRate)).



(** The sum of the principal parts of a schedule, added up in binary64
    from the last period to the first. *)
Definition total_principal (s : list ScheduleRow.t) : number :=
  foldr (fun row acc => add (ScheduleRow.principal row) acc) zero s.

(** The sum of finite numbers as a rational, without rounding. *)
Fixpoint exact_sum (l : list number) : option Q :=
  match l with
  | [] => Some 0%Q
  | Num q :: l' =>
      match exact_sum l' with
      | Some s => Some (q + s)%Q
      | None => None
      end
  | _ :: _ => None
  end.


(** Each balance is at most the one before it, under [<=] on numbers. *)
Definition non_increasing (l : list number) : Prop :=
  forall (i : nat) (x y : number),
    l !! i = Some x -> l !! S i = Some y -> le y x = true.

Definition never_negative (l : list number) : Prop :=
  Forall (fun x => le zero x = true) l.

(** The numeric fields of a period: payment, interest, principal part
    and balance. *)
Definition numeric_fields (row : ScheduleRow.t)
  : number * number * number * number :=
  (ScheduleRow.payment row, ScheduleRow.interest row,
   ScheduleRow.principal row, ScheduleRow.balance row).

(** In every period the interest and principal parts add up to the
    payment, under [===] on numbers. *)
Definition payment_split (s : list ScheduleRow.t) : Prop :=
  Forall (fun row =>
            strict_eq (add (ScheduleRow.interest row)
                           (ScheduleRow.principal row))
                      (ScheduleRow.payment row) = true) s.

(** Any two periods carry the same payment, under [===] on numbers. *)
Definition payment_constant (s : list ScheduleRow.t) : Prop :=
  forall r1 r2 : ScheduleRow.t,
    r1 ∈ s -> r2 ∈ s ->
    strict_eq (ScheduleRow.payment r1) (ScheduleRow.payment r2) = true.

(** *** Concrete inputs *)

Definition jan_1_2024 : Date := civil 2024 0 1.

(** 12000 over one year, monthly, at 0%. *)
Definition zero_rate_loan : State.t :=
  mkState jan_1_2024 "12000" "1" "0" "monthly" "0".

(** 1000 over half a year, one period per year, at 56.25%. *)
Definition half_year_loan : State.t :=
  mkState jan_1_2024 "1000" "0.5" "56.25" "annually" "0".


(** Monthly periods from 31 January 2024. *)
Definition jan_31_loan : State.t :=
  mkState (civil 2024 0 31) "1000" "1" "12" "monthly" "0".

(** The same loan from 31 January 2023 with a moratorium of one and of
    two months. *)
Definition moratorium_1_loan : State.t :=
  mkState (civil 2023 0 31) "1000" "1" "12" "monthly" "1".
Definition moratorium_2_loan : State.t :=
  mkState (civil 2023 0 31) "1000" "1" "12" "monthly" "2".

(** The same loan from 1 January 2024 without and with a moratorium of
    three months. *)
Definition moratorium_0_loan : State.t :=
  mkState jan_1_2024 "1000" "1" "12" "monthly" "0".
Definition moratorium_3_loan : State.t :=
  mkState jan_1_2024 "1000" "1" "12" "monthly" "3".


(** 100000 over one year, monthly, at 12%. *)
Definition reference_loan : State.t :=
  mkState jan_1_2024 "100000" "1" "12" "monthly" "0".

(** A tenure whose twelvefold overflows binary64. *)
Definition huge_tenure_loan : State.t :=
  mkState jan_1_2024 "1000" "1e308" "12" "monthly" "0".

(** A tenure just above a third of a year: twelve times it rounds to 4. *)
Definition third_year_loan : State.t :=
  mkState jan_1_2024 "1000" "0.33333333333333337" "12" "monthly" "0".

(** A tenure that converts to [Infinity]. *)
Definition infinite_tenure_loan : State.t :=
  mkState jan_1_2024 "1000" "Infinity" "12" "monthly" "0".

Definition non_numeric_principal : State.t :=
  mkState jan_1_2024 "abc" "1" "12" "monthly" "0".
Definition non_numeric_tenure : State.t :=
  mkState jan_1_2024 "1000" "abc" "12" "monthly" "0".
Definition non_numeric_rate : State.t :=
  mkState jan_1_2024 "1000" "1" "abc" "monthly" "0".
Definition non_numeric_moratorium : State.t :=
  mkState jan_1_2024 "1000" "1" "12" "monthly" "abc".

(** *** Further inputs *)

(** A tenure that is not a number, with the schedule of an earlier
    computation still in the state. *)
Definition nan_tenure_loan : State.t :=
  State.mk (Some jan_1_2024)
    [ScheduleRow.mk jan_1_2024 (of_Z 1120) (of_Z 120) (of_Z 1000) (of_Z 0)]
    false ∅ (FormData.mk "1000" "abc" "12" "monthly" "0").

(** A principal of 0, with the schedule of an earlier computation still
    in the state. *)
Definition zero_principal_loan : State.t :=
  State.mk (Some jan_1_2024)
    [ScheduleRow.mk jan_1_2024 (of_Z 1120) (of_Z 120) (of_Z 1000) (of_Z 0)]
    true ∅ (FormData.mk "0" "1" "12" "monthly" "0").

(** The principal field cleared, with the schedule of an earlier
    computation still in the state. *)
Definition cleared_principal_loan : State.t :=
  State.mk (Some jan_1_2024)
    [ScheduleRow.mk jan_1_2024 (of_Z 1120) (of_Z 120) (of_Z 1000) (of_Z 0)]
    false ∅ (FormData.mk EmptyString "1" "12" "monthly" "0").

(** 1000 over one year, quarterly, at 8%. *)
Definition quarterly_loan : State.t :=
  mkState jan_1_2024 "1000" "1" "8" "quarterly" "0".

(** *** Export

    [Number.prototype.toFixed(2)] as the rows of the CSV file and of the
    PDF table use it.  NaN and the infinities give their names; a finite
    number is rounded to the nearest hundredth (the larger one on a tie
    of magnitudes) and written with its sign, its integer digits, a
    point and two digits.  From 10^21 on the magnitude is written as
    [Number::toString] writes it, in exponent notation with the fewest
    digits that [Number] reads back as the same number. *)

(** The decimal digits of [n >= 0], most significant first. *)
Definition digit_char (d : Z) : ascii := ascii_of_N (Z.to_N (48 + d)).

Fixpoint digits_rev (fuel : nat) (n : Z) : list ascii :=
  match fuel with
  | O => []
  | S fuel' =>
      if n <? 10 then [digit_char n]
      else digit_char (n mod 10) :: digits_rev fuel' (n / 10)
  end.

Definition decimal_digits (n : Z) : list ascii :=
  rev (digits_rev (S (Z.to_nat (Z.log2 n))) n).

(** Whether the whole number [v] converts to the binary64 number [a]. *)
Definition reads_back (a : Q) (v : Z) : bool :=
  strict_eq (round64 (inject_Z v)) (Num a).

(** The whole number with the fewest significant digits, [k] or more
    and at most [k + fuel], that converts to the whole number [x] with
    [n] digits; of two with equally few digits the one nearer to [x],
    and of two equally near the one with the even last digit. *)
Fixpoint shortest_decimal (fuel : nat) (k : Z) (x n : Z) : Z :=
  let scale := 10 ^ (n - k) in
  let lo := x / scale in
  let nearest :=
    match x - lo * scale ?= (lo + 1) * scale - x with
    | Lt => lo
    | Gt => lo + 1
    | Eq => if Z.even lo then lo else lo + 1
    end in
  let ok_lo := reads_back (inject_Z x) (lo * scale) in
  let ok_hi := reads_back (inject_Z x) ((lo + 1) * scale) in
  match fuel with
  | O => nearest * scale
  | S fuel' =>
      if ok_lo && ok_hi then nearest * scale
      else if ok_lo then lo * scale
      else if ok_hi then (lo + 1) * scale
      else shortest_decimal fuel' (k + 1) x n
  end.

(** [Number::toString] on a binary64 number from 10^21 on, which is a
    whole number: the first digit, a point and the other digits if
    there are any, and the exponent. *)
Definition exponent_notation (a : Q) : list ascii :=
  let x := Qfloor a in
  let n := Z.of_nat (length (decimal_digits x)) in
  let ds := decimal_digits (shortest_decimal 16 1 x n) in
  let digits := rev (drop_while (Ascii.eqb "0") (rev ds)) in
  let exponent := decimal_digits (Z.of_nat (length ds) - 1) in
  match digits with
  | [] => []
  | d :: [] => d :: "e"%char :: "+"%char :: exponent
  | d :: rest => d :: "."%char :: rest ++ "e"%char :: "+"%char :: exponent
  end.

(** [x.toFixed(fractionDigits)] *)
Definition toFixed (fractionDigits : nat) (x : number) : string :=
  match x with
  | NaN => "NaN"%string
  | PInf => "Infinity"%string
  | NInf => "-Infinity"%string
  | Num q =>
      let s := if is_neg q then ["-"%char] else [] in
      let a := Qabs q in
      if Qle_bool (inject_Z (10 ^ 21)) a
      then string_of_list_ascii (s ++ exponent_notation a)
      else
        let f := fractionDigits in
        let n := Qfloor (a * inject_Z (10 ^ Z.of_nat f) + (1 # 2)) in
        let m := decimal_digits n in
        let m :=
          match f with
          | O => m
          | S _ =>
              let m := replicate (f + 1 - length m) "0"%char ++ m in
              let k := length m in
              take (k - f) m ++ "."%char :: drop (k - f) m
          end in
        string_of_list_ascii (s ++ m)
  end.

(** A character that is a decimal digit or the point. *)
Definition digit_or_point (c : ascii) : bool :=
  is_digit 10 c || Ascii.eqb c ".".


(** [format(date, "PP")] of date-fns in its default locale: the
    abbreviated month, the day, a comma and the year; an invalid date
    makes it throw, which is [None] here. *)
Definition month_name (m : Z) : string :=
  match m with
  | 0 => "Jan" | 1 => "Feb" | 2 => "Mar" | 3 => "Apr" | 4 => "May"
  | 5 => "Jun" | 6 => "Jul" | 7 => "Aug" | 8 => "Sep" | 9 => "Oct"
  | 10 => "Nov" | _ => "Dec"
  end%string.

Definition format_PP (t : Date) : option string :=
  match t with
  | InvalidDate => None
  | DateOf d =>
      let y := YearFromTime d in
      let year := if 0 <? y then y else 1 - y in
      Some (month_name (MonthFromTime d) ++ " "
            ++ string_of_list_ascii (decimal_digits (DateFromTime d)) ++ ", "
            ++ string_of_list_ascii (decimal_digits year))%string
  end.

(** A number that [toFixed] writes in fixed notation: any but a finite
    one of magnitude 10^21 or more. *)
Definition fixable (x : number) : Prop :=
  match x with
  | Num q => (Qabs q < inject_Z (10 ^ 21))%Q
  | _ => True
  end.

(** [y] is [x] up to half a hundredth: the same special value, or a
    finite number at most 1/200 away. *)
Definition within_half_cent (y x : number) : Prop :=
  match x, y with
  | NaN, NaN | PInf, PInf | NInf, NInf => True
  | Num q, Num r => (Qabs (r - q) <= 1 # 200)%Q
  | _, _ => False
  end.

(** The text of a finite number with two fraction digits: an optional
    minus sign, one or more digits, a point and two digits. *)
Definition two_decimals (s : string) : Prop :=
  exists sign a b,
    s = string_of_list_ascii (sign ++ a ++ "."%char :: b) /\
    (sign = [] \/ sign = ["-"%char]) /\
    a <> [] /\ length b = 2%nat /\
    forallb (is_digit 10) a = true /\ forallb (is_digit 10) b = true.

(** One row of [tableData] and of [csvData].  [format] is the date
    formatter, [None] where it throws. *)
Definition export_row (format : Date -> option string) (row : ScheduleRow.t)
  : option (list string) :=
  d ← format (ScheduleRow.date row);
  Some [d;
        toFixed 2 (ScheduleRow.payment row);
        toFixed 2 (ScheduleRow.interest row);
        toFixed 2 (ScheduleRow.principal row);
        toFixed 2 (ScheduleRow.balance row)].

(** The table body built in [downloadPDF]. *)
Definition tableData (format : Date -> option string)
    (schedule : list ScheduleRow.t) : option (list (list string)) :=
  mapM (export_row format) schedule.

Definition csv_header : list string :=
  ["Date"; "Payment"; "Interest"; "Principal"; "Balance"]%string.

(** [csvData]: the header row followed by the same rows. *)
Definition csvData (format : Date -> option string)
    (schedule : list ScheduleRow.t) : option (list (list string)) :=
  body ← tableData format schedule; Some (csv_header :: body).

(** The text [s] of an amount [x]: what [toFixed(2)] makes of [x], and,
    when that is in fixed notation, a decimal with two fraction digits
    at most half a hundredth away from [x], or the name of [x]. *)
Definition amount_text (s : string) (x : number) : Prop :=
  s = toFixed 2 x /\
  (fixable x ->
   within_half_cent (StringMV s) x /\
   forall q, x = Num q -> two_decimals s).

(** ** Rounding to binary64 *)

Lemma pow2_pos (k : Z) : (0 < 2 ^ k)%Q.
Proof. by apply Qpower_0_lt. Qed.

Lemma pow2_nonzero (k : Z) : ~ (2 ^ k == 0)%Q.
Proof. pose proof (pow2_pos k). lra. Qed.

Lemma pow2_Z (k : Z) : 0 <= k -> (2 ^ k == inject_Z (2 ^ k))%Q.
Proof. intros H. by rewrite Zpower_Qpower. Qed.

Lemma pow2_add (a b : Z) : (2 ^ (a + b) == 2 ^ a * 2 ^ b)%Q.
Proof. by apply Qpower_plus. Qed.

Lemma pow2_le (a b : Z) : a <= b -> (2 ^ a <= 2 ^ b)%Q.
Proof. intros H. by apply Qpower_le_compat_l. Qed.

Lemma pow2_lt (a b : Z) : a < b -> (2 ^ a < 2 ^ b)%Q.
Proof. intros H. by apply Qpower_lt_compat_l. Qed.

Lemma ilog2_spec (q : Q) :
  (0 < q)%Q -> (2 ^ ilog2 q <= q < 2 ^ (ilog2 q + 1))%Q.
Proof.
  intros Hq. unfold ilog2.
  destruct q as [n d]. cbn [Qnum Qden].
  assert (0 < n) as Hn by (unfold Qlt in Hq; cbn in Hq; lia).
  pose proof (Z.log2_spec n Hn) as [Ha1 Ha2].
  pose proof (Z.log2_spec (Zpos d) ltac:(lia)) as [Hb1 Hb2].
  pose proof (Z.log2_nonneg n) as Ha0.
  pose proof (Z.log2_nonneg (Zpos d)) as Hb0.
  set (a := Z.log2 n) in *. set (b := Z.log2 (Zpos d)) in *.
  assert (2 ^ (a - b - 1) < n # d < 2 ^ (a - b + 1))%Q as [Hlo Hhi].
  { rewrite !Z.pow_succ_r in * by lia.
    replace (a - b - 1) with (a - (b + 1)) by lia.
    replace (a - b + 1) with (a + 1 - b) by lia.
    rewrite !Qpower_minus by done.
    rewrite !pow2_Z by lia.
    rewrite !Z.add_1_r, !Z.pow_succ_r by lia.
    set (A := 2 ^ a) in *. set (B := 2 ^ b) in *.
    rewrite (Qmake_Qdiv n d).
    assert (0 < inject_Z (Zpos d))%Q as Hd
      by (change 0%Q with (inject_Z 0); rewrite <- Zlt_Qlt; lia).
    assert (0 < inject_Z B)%Q as HB
      by (change 0%Q with (inject_Z 0); rewrite <- Zlt_Qlt; lia).
    assert (0 < inject_Z (2 * B))%Q as HB2
      by (change 0%Q with (inject_Z 0); rewrite <- Zlt_Qlt; lia).
    split.
    - apply Qlt_shift_div_l; [done |].
      unfold Qdiv. rewrite <- Qmult_assoc, (Qmult_comm (/ _)), Qmult_assoc.
      apply Qlt_shift_div_r; [done |].
      rewrite <- !inject_Z_mult, <- Zlt_Qlt. nia.
    - apply Qlt_shift_div_r; [done |].
      unfold Qdiv. rewrite <- Qmult_assoc, (Qmult_comm (/ _)), Qmult_assoc.
      apply Qlt_shift_div_l; [done |].
      rewrite <- !inject_Z_mult, <- Zlt_Qlt. nia. }
  destruct (Qle_bool (2 ^ (a - b)) (n # d)) eqn:Ht.
  - apply Qle_bool_iff in Ht. split; [done | done].
  - assert (n # d < 2 ^ (a - b))%Q as Ht'.
    { apply Qnot_le_lt. intros H. apply Qle_bool_iff in H. congruence. }
    split; [by apply Qlt_le_weak |].
    by replace (a - b - 1 + 1) with (a - b) by lia.
Qed.

Lemma round_half_even_cases (x : Q) :
  round_half_even x = Qfloor x /\ (x - inject_Z (Qfloor x) <= 1 # 2)%Q \/
  round_half_even x = Qfloor x + 1 /\ (1 # 2 <= x - inject_Z (Qfloor x))%Q.
Proof.
  unfold round_half_even.
  destruct (x - inject_Z (Qfloor x) ?= 1 # 2)%Q eqn:Hc.
  - apply Qeq_alt in Hc. destruct (Z.even (Qfloor x)); [left | right];
      (split; [done | lra]).
  - apply Qlt_alt in Hc. left. split; [done | lra].
  - apply Qgt_alt in Hc. right. split; [done | lra].
Qed.

(** Rounding to the nearest whole number does not cross a whole
    number. *)
Lemma round_half_even_ge (x : Q) (k : Z) :
  (inject_Z k <= x)%Q -> k <= round_half_even x.
Proof.
  intros H. apply Qfloor_resp_le in H. rewrite Qfloor_Z in H.
  destruct (round_half_even_cases x) as [[-> _] | [-> _]]; lia.
Qed.

Lemma round_half_even_le (x : Q) (k : Z) :
  (x <= inject_Z k)%Q -> round_half_even x <= k.
Proof.
  intros H. pose proof (Qfloor_le x) as Hf.
  destruct (round_half_even_cases x) as [[-> _] | [-> Hh]].
  - rewrite Zle_Qle. lra.
  - assert (inject_Z (Qfloor x) < inject_Z k)%Q as Hlt by lra.
    rewrite <- Zlt_Qlt in Hlt. lia.
Qed.

Lemma round_half_even_Z (x : Q) (k : Z) :
  (x == inject_Z k)%Q -> round_half_even x = k.
Proof.
  intros H.
  pose proof (round_half_even_ge x k) as H1.
  pose proof (round_half_even_le x k) as H2.
  assert (k <= round_half_even x) by (apply H1; lra).
  assert (round_half_even x <= k) by (apply H2; lra). lia.
Qed.

Lemma round_half_even_error (x : Q) :
  (Qabs (inject_Z (round_half_even x) - x) <= 1 # 2)%Q.
Proof.
  pose proof (Qfloor_le x) as H1. pose proof (Qlt_floor x) as H2.
  rewrite inject_Z_plus in H2. change (inject_Z 1) with 1%Q in H2.
  apply Qabs_Qle_condition.
  destruct (round_half_even_cases x) as [[-> H] | [-> H]];
    rewrite ?inject_Z_plus; change (inject_Z 1) with 1%Q; split; lra.
Qed.

Lemma inject_Z_nonneg (z : Z) : 0 <= z -> (0 <= inject_Z z)%Q.
Proof.
  intros H. change 0%Q with (inject_Z 0). by rewrite <- Zle_Qle.
Qed.

Lemma inject_Z_pos (z : Z) : 0 < z -> (0 < inject_Z z)%Q.
Proof.
  intros H. change 0%Q with (inject_Z 0). by rewrite <- Zlt_Qlt.
Qed.

Lemma quantum_cases (a : Q) :
  quantum a = ilog2 a - 52 /\ - 1022 <= ilog2 a \/
  quantum a = - 1074 /\ ilog2 a < - 1022.
Proof. unfold quantum. lia. Qed.

Section RoundMagnitude.

Variable a : Q.
Hypothesis Ha : (0 < a)%Q.

(** Rounding does not cross a multiple of the last place. *)
Lemma round_magnitude_ge (k : Z) :
  (inject_Z k * 2 ^ quantum a <= a)%Q ->
  (inject_Z k * 2 ^ quantum a <= round_magnitude a)%Q.
Proof.
  intros H. unfold round_magnitude.
  pose proof (pow2_pos (quantum a)) as Hp.
  apply Qmult_le_compat_r; [| lra].
  rewrite <- Zle_Qle. apply round_half_even_ge.
  by apply Qle_shift_div_l.
Qed.

Lemma round_magnitude_le (k : Z) :
  (a <= inject_Z k * 2 ^ quantum a)%Q ->
  (round_magnitude a <= inject_Z k * 2 ^ quantum a)%Q.
Proof.
  intros H. unfold round_magnitude.
  pose proof (pow2_pos (quantum a)) as Hp.
  apply Qmult_le_compat_r; [| lra].
  rewrite <- Zle_Qle. apply round_half_even_le.
  by apply Qle_shift_div_r.
Qed.

Lemma round_magnitude_error :
  (Qabs (round_magnitude a - a) <= 2 ^ quantum a * (1 # 2))%Q.
Proof.
  unfold round_magnitude.
  pose proof (pow2_pos (quantum a)) as Hp.
  pose proof (round_half_even_error (a / 2 ^ quantum a)) as H.
  set (m := inject_Z (round_half_even (a / 2 ^ quantum a))) in *.
  assert (m * 2 ^ quantum a - a == (m - a / 2 ^ quantum a) * 2 ^ quantum a)%Q
    as -> by (field; lra).
  rewrite Qabs_Qmult, (Qabs_pos (2 ^ quantum a)) by lra.
  rewrite (Qmult_comm (2 ^ quantum a)).
  apply Qmult_le_compat_r; [done | lra].
Qed.

(** From [2 ^ -1022] on the result keeps the binary exponent or moves
    to the next power of two. *)
Lemma round_magnitude_normal :
  - 1022 <= ilog2 a -> (2 ^ ilog2 a <= round_magnitude a)%Q.
Proof.
  intros He. destruct (quantum_cases a) as [[Hq _] | [_ ?]]; [| lia].
  pose proof (ilog2_spec a Ha) as [Hlo _].
  assert (2 ^ ilog2 a == inject_Z (2 ^ 52) * 2 ^ quantum a)%Q as Heq.
  { rewrite Hq, <- pow2_Z by lia. rewrite <- pow2_add. f_equiv. lia. }
  rewrite Heq. apply round_magnitude_ge. by rewrite <- Heq.
Qed.

End RoundMagnitude.

Lemma Qred_inject_Z (k : Z) : Qred (inject_Z k) = inject_Z k.
Proof.
  unfold Qred, inject_Z. cbn [Qnum Qden].
  pose proof (Z.ggcd_gcd k 1) as Hg.
  pose proof (Z.ggcd_correct_divisors k 1) as Hd.
  destruct (Z.ggcd k 1) as [g [n d]]. cbn [fst snd] in *.
  rewrite Z.gcd_1_r in Hg. subst g. destruct Hd as [Hn Hd].
  assert (n = k) as -> by lia. assert (d = 1) as -> by lia. reflexivity.
Qed.

Lemma Qabs_pos_eq (q : Q) : (0 < q)%Q -> Qabs q = q.
Proof.
  destruct q as [n d]. unfold Qlt. cbn. intros H.
  unfold Qabs. f_equal. lia.
Qed.

Lemma Qle_bool_false (x y : Q) : Qle_bool x y = false <-> (y < x)%Q.
Proof.
  split.
  - intros H. apply Qnot_le_lt. rewrite <- Qle_bool_iff, H. done.
  - intros H. apply not_true_is_false. rewrite Qle_bool_iff.
    by apply Qlt_not_le.
Qed.

Lemma Qeq_bool_false (x y : Q) : ~ (x == y)%Q -> Qeq_bool x y = false.
Proof.
  intros H. apply not_true_is_false. by rewrite Qeq_bool_iff.
Qed.

(** [round64] on a positive rational. *)
Lemma round64_pos (q : Q) :
  (0 < q)%Q ->
  round64 q = PInf /\ (2 ^ 1024 <= round_magnitude q)%Q \/
  round64 q = Num (Qred (round_magnitude q)) /\
  (round_magnitude q < 2 ^ 1024)%Q.
Proof.
  intros Hq. unfold round64, is_zero, is_neg.
  rewrite Qeq_bool_false by lra. rewrite (Qabs_pos_eq q Hq).
  assert (Qle_bool 0 q = true) as -> by (apply Qle_bool_iff; lra).
  cbn [negb].
  destruct (Qle_bool (2 ^ 1024) (round_magnitude q)) eqn:Ht.
  - left. split; [done | by apply Qle_bool_iff].
  - right. split; [done | by apply Qle_bool_false].
Qed.

Lemma round64_zero (q : Q) : (q == 0)%Q -> round64 q = Num 0.
Proof.
  intros H. unfold round64, is_zero.
  by assert (Qeq_bool q 0 = true) as -> by (by apply Qeq_bool_iff).
Qed.

(** A multiple [k * 2 ^ j] of a power of two no finer than [2 ^ -1074],
    with [k] of at most 53 bits, is a binary64 number; rounding does
    not cross it. *)
Section GridPoint.

Variables (k j : Z).
Hypothesis Hk : 0 <= k <= 2 ^ 53.
Hypothesis Hj : - 1074 <= j.

Local Abbreviation g := (inject_Z k * 2 ^ j)%Q.

Lemma grid_point_quantum (a : Q) :
  (0 < a)%Q ->
  (exists k', g == inject_Z k' * 2 ^ quantum a)%Q \/
  (g <= 2 ^ ilog2 a)%Q /\ - 1022 <= ilog2 a.
Proof.
  intros Ha. destruct (Z.le_gt_cases (quantum a) j) as [Hle | Hgt].
  - left. exists (k * 2 ^ (j - quantum a)).
    rewrite inject_Z_mult, <- pow2_Z by lia.
    rewrite <- Qmult_assoc, <- pow2_add. f_equiv. f_equiv. lia.
  - right. destruct (quantum_cases a) as [[Hq He] | [Hq _]]; [| lia].
    split; [| done].
    apply Qle_trans with (inject_Z (2 ^ 53) * 2 ^ j)%Q.
    + pose proof (pow2_pos j). apply Qmult_le_compat_r; [| lra].
      rewrite <- Zle_Qle. lia.
    + rewrite <- pow2_Z, <- pow2_add by lia. apply pow2_le. lia.
Qed.

Lemma round_magnitude_ge_grid (a : Q) :
  (0 < a)%Q -> (g <= a)%Q -> (g <= round_magnitude a)%Q.
Proof.
  intros Ha Hg. destruct (grid_point_quantum a Ha) as [[k' Hk'] | [Hle He]].
  - rewrite Hk' in *. by apply round_magnitude_ge.
  - eapply Qle_trans; [exact Hle |]. by apply round_magnitude_normal.
Qed.

Lemma round_magnitude_le_grid (a : Q) :
  (0 < a)%Q -> (a <= g)%Q -> (round_magnitude a <= g)%Q.
Proof.
  intros Ha Hg. destruct (grid_point_quantum a Ha) as [[k' Hk'] | [Hle He]].
  - rewrite Hk' in *. by apply round_magnitude_le.
  - pose proof (ilog2_spec a Ha) as [Hlo _].
    destruct (quantum_cases a) as [[Hq _] | [_ ?]]; [| lia].
    assert (2 ^ ilog2 a == inject_Z (2 ^ 52) * 2 ^ quantum a)%Q as Heq.
    { rewrite Hq, <- pow2_Z by lia. rewrite <- pow2_add. f_equiv. lia. }
    apply Qle_trans with (2 ^ ilog2 a)%Q; [| lra].
    rewrite Heq. apply round_magnitude_le. rewrite <- Heq. lra.
Qed.

End GridPoint.

(** Whole numbers up to [2 ^ 53] are binary64 numbers. *)
Lemma round64_inject_Z (k : Z) :
  0 <= k <= 2 ^ 53 -> round64 (inject_Z k) = Num (inject_Z k).
Proof.
  intros Hk. destruct (Z.eq_dec k 0) as [-> | Hne]; [reflexivity |].
  assert (0 < inject_Z k)%Q as Hpos by (apply inject_Z_pos; lia).
  assert (inject_Z k == inject_Z k * 2 ^ 0)%Q as Hg
    by (change (2 ^ 0)%Q with 1%Q; ring).
  assert (round_magnitude (inject_Z k) == inject_Z k)%Q as Hr.
  { apply Qle_antisym.
    - rewrite Hg at 2. apply round_magnitude_le_grid; try done; lra.
    - rewrite Hg at 1. apply round_magnitude_ge_grid; try done; lra. }
  destruct (round64_pos _ Hpos) as [[_ Hbig] | [-> _]].
  - exfalso. rewrite Hr in Hbig.
    assert (inject_Z k <= 2 ^ 53)%Q as Hle
      by (rewrite pow2_Z by lia; rewrite <- Zle_Qle; lia).
    pose proof (pow2_lt 53 1024 ltac:(lia)). lra.
  - by rewrite (Qred_complete _ _ Hr), Qred_inject_Z.
Qed.

Lemma add_of_Z (a b : Z) :
  0 <= a -> 0 <= b -> a + b <= 2 ^ 53 ->
  add (of_Z a) (of_Z b) = of_Z (a + b).
Proof.
  intros Ha Hb Hab. unfold add, of_Z.
  rewrite <- round64_inject_Z by lia.
  assert (round64 (inject_Z a + inject_Z b)
          = round64 (inject_Z (a + b))) as ->; [| done].
  by rewrite inject_Z_plus.
Qed.

Lemma round_magnitude_nonneg (a : Q) : (0 < a)%Q -> (0 <= round_magnitude a)%Q.
Proof.
  intros Ha. unfold round_magnitude. pose proof (pow2_pos (quantum a)) as Hp.
  apply Qmult_le_0_compat; [| lra].
  apply inject_Z_nonneg, round_half_even_ge.
  apply Qle_shift_div_l; [done |].
  change (inject_Z 0) with 0%Q. rewrite Qmult_0_l. lra.
Qed.

Lemma Qabs_pos_nonzero (q : Q) : ~ (q == 0)%Q -> (0 < Qabs q)%Q.
Proof.
  intros H. pose proof (Qabs_nonneg q) as Hn.
  destruct (Qeq_dec (Qabs q) 0) as [Hz | Hz]; [| lra].
  exfalso. apply H. destruct (Qlt_le_dec q 0) as [Hlt | Hge].
  - rewrite Qabs_neg in Hz by lra. lra.
  - rewrite Qabs_pos in Hz by lra. done.
Qed.

(** A finite result of [round64] in terms of [round_magnitude]. *)
Lemma round64_finite (q c : Q) :
  round64 q = Num c -> ~ (q == 0)%Q ->
  (Qabs c == round_magnitude (Qabs q))%Q /\
  (Qabs (c - q) == Qabs (round_magnitude (Qabs q) - Qabs q))%Q.
Proof.
  intros H Hq. unfold round64, is_zero in H.
  rewrite Qeq_bool_false in H by done.
  pose proof (round_magnitude_nonneg _ (Qabs_pos_nonzero q Hq)) as Hr.
  set (r := round_magnitude (Qabs q)) in *.
  destruct (Qle_bool (2 ^ 1024) r); [by destruct (is_neg q) |].
  injection H as <-. unfold is_neg.
  destruct (Qle_bool 0 q) eqn:Hs; cbn [negb]; rewrite Qred_correct.
  - apply Qle_bool_iff in Hs. rewrite (Qabs_pos q), (Qabs_pos r) by done. done.
  - apply Qle_bool_false in Hs. rewrite (Qabs_neg q) by lra. split.
    + rewrite Qabs_opp. by apply Qabs_pos.
    + assert (- r - q == - (r - - q))%Q as -> by ring. apply Qabs_opp.
Qed.

Lemma on_grid_0 : on_grid 0.
Proof. exists 0. ring. Qed.

Lemma on_grid_opp (q : Q) : on_grid q -> on_grid (- q).
Proof. intros [k H]. exists (- k). rewrite H, inject_Z_opp. ring. Qed.

Lemma on_grid_plus (x y : Q) : on_grid x -> on_grid y -> on_grid (x + y).
Proof.
  intros [k Hk] [l Hl]. exists (k + l). rewrite Hk, Hl, inject_Z_plus. ring.
Qed.

Lemma on_grid_Qabs (q : Q) : on_grid q -> on_grid (Qabs q).
Proof.
  intros H. destruct (Qlt_le_dec q 0) as [Hlt | Hge].
  - destruct (on_grid_opp q H) as [k Hk]. exists k.
    by rewrite Qabs_neg by lra.
  - destruct H as [k Hk]. exists k. by rewrite Qabs_pos.
Qed.

Lemma on_grid_Qeq (x y : Q) : (x == y)%Q -> on_grid x -> on_grid y.
Proof. intros Heq [k Hk]. exists k. by rewrite <- Heq. Qed.

Lemma round_magnitude_on_grid (a : Q) : on_grid (round_magnitude a).
Proof.
  unfold round_magnitude. set (m := round_half_even _).
  assert (- 1074 <= quantum a) as Hq by (unfold quantum; lia).
  exists (m * 2 ^ (quantum a + 1074)).
  rewrite inject_Z_mult, <- pow2_Z by lia.
  rewrite <- Qmult_assoc, <- pow2_add. f_equiv. f_equiv. lia.
Qed.

(** Every finite result of [round64] is a binary64 number. *)
Lemma round64_on_grid (q c : Q) : round64 q = Num c -> on_grid c.
Proof.
  intros H. destruct (Qeq_dec q 0) as [Hz | Hz].
  - rewrite round64_zero in H by done. injection H as <-. apply on_grid_0.
  - destruct (round64_finite q c H Hz) as [Habs _].
    pose proof (round_magnitude_on_grid (Qabs q)) as Hg.
    apply (on_grid_Qeq _ _ (Qeq_sym _ _ Habs)) in Hg.
    destruct (Qlt_le_dec c 0) as [Hlt | Hge].
    + apply (on_grid_Qeq _ (- c)) in Hg; [| apply Qabs_neg; lra].
      apply on_grid_opp in Hg. eapply on_grid_Qeq; [| exact Hg]. ring.
    + eapply on_grid_Qeq; [| exact Hg]. by apply Qabs_pos.
Qed.

(** Below [2 ^ -1022] the binary64 numbers are the multiples of
    [2 ^ -1074], and rounding leaves them as they are. *)
Lemma round_magnitude_subnormal (a : Q) :
  (0 < a)%Q -> on_grid a -> ilog2 a < - 1022 ->
  (round_magnitude a == a)%Q.
Proof.
  intros Ha [k Hk] He.
  destruct (quantum_cases a) as [[_ ?] | [Hq _]]; [lia |].
  unfold round_magnitude. rewrite Hq.
  rewrite (round_half_even_Z _ k).
  - by rewrite Hk.
  - rewrite Hk. field. apply pow2_nonzero.
Qed.

(** The error of rounding a multiple of [2 ^ -1074] is at most
    [2 ^ -53] of the result. *)
Lemma round64_error (q c : Q) :
  on_grid q -> round64 q = Num c ->
  (Qabs (c - q) <= Qabs c * (1 # 2 ^ 53))%Q.
Proof.
  intros Hg H. destruct (Qeq_dec q 0) as [Hz | Hz].
  - rewrite round64_zero in H by done. injection H as <-.
    rewrite Hz. by vm_compute.
  - destruct (round64_finite q c H Hz) as [-> ->].
    pose proof (Qabs_pos_nonzero q Hz) as Ha.
    apply on_grid_Qabs in Hg.
    set (a := Qabs q) in *.
    destruct (Z.le_gt_cases (- 1022) (ilog2 a)) as [He | He].
    + pose proof (round_magnitude_error a) as Herr.
      pose proof (round_magnitude_normal a Ha He) as Hlo.
      destruct (quantum_cases a) as [[Hq _] | [_ ?]]; [| lia].
      assert (2 ^ quantum a * (1 # 2) == 2 ^ ilog2 a * (1 # 2 ^ 53))%Q as Heq.
      { rewrite Hq. replace (ilog2 a - 52) with (ilog2 a + - 52) by lia.
        rewrite pow2_add.
        assert (2 ^ (- 52) * (1 # 2) == 1 # 2 ^ 53)%Q as <- by (by vm_compute).
        ring. }
      rewrite Heq in Herr. eapply Qle_trans; [exact Herr |].
      apply Qmult_le_compat_r; [done | by vm_compute].
    + rewrite (round_magnitude_subnormal a Ha Hg He).
      assert (a - a == 0)%Q as -> by ring.
      change (Qabs 0) with 0%Q.
      apply Qmult_le_0_compat; [lra | by vm_compute].
Qed.

(** [round64] depends on the value of a rational only, not on the
    fraction that represents it. *)
Lemma ilog2_unique (q : Q) (e : Z) :
  (2 ^ e <= q < 2 ^ (e + 1))%Q -> ilog2 q = e.
Proof.
  intros [Hlo Hhi].
  assert (0 < q)%Q as Hq by (pose proof (pow2_pos e); lra).
  pose proof (ilog2_spec q Hq) as [Hlo' Hhi'].
  destruct (Z.lt_trichotomy (ilog2 q) e) as [Hlt | [Heq | Hgt]]; [| done |].
  - pose proof (pow2_le (ilog2 q + 1) e ltac:(lia)). lra.
  - pose proof (pow2_le (e + 1) (ilog2 q) ltac:(lia)). lra.
Qed.

Lemma ilog2_comp (x y : Q) : (0 < x)%Q -> (x == y)%Q -> ilog2 x = ilog2 y.
Proof.
  intros Hx Heq. symmetry. apply ilog2_unique. rewrite <- Heq.
  by apply ilog2_spec.
Qed.

Lemma round_half_even_comp (x y : Q) :
  (x == y)%Q -> round_half_even x = round_half_even y.
Proof.
  intros Heq. unfold round_half_even.
  rewrite (Qfloor_comp _ _ Heq).
  assert ((x - inject_Z (Qfloor y) ?= 1 # 2)%Q
          = (y - inject_Z (Qfloor y) ?= 1 # 2)%Q) as ->; [| done].
  apply Qcompare_comp; [by rewrite Heq | done].
Qed.

Lemma round_magnitude_comp (x y : Q) :
  (0 < x)%Q -> (x == y)%Q -> (round_magnitude x == round_magnitude y)%Q.
Proof.
  intros Hx Heq. unfold round_magnitude, quantum.
  rewrite (ilog2_comp x y Hx Heq).
  set (e := Z.max (ilog2 y - 52) (- 1074)).
  rewrite (round_half_even_comp (x / 2 ^ e) (y / 2 ^ e)); [done |].
  by rewrite Heq.
Qed.

Lemma Qle_bool_comp (a x y : Q) : (x == y)%Q -> Qle_bool a x = Qle_bool a y.
Proof.
  intros Heq. apply eq_true_iff_eq. rewrite !Qle_bool_iff. by rewrite Heq.
Qed.

Lemma round64_comp (x y : Q) : (x == y)%Q -> round64 x = round64 y.
Proof.
  intros Heq. destruct (Qeq_dec x 0) as [Hz | Hz].
  - rewrite !round64_zero; [done | by rewrite <- Heq | done].
  - assert (~ y == 0)%Q as Hz' by (by rewrite <- Heq).
    unfold round64, is_zero, is_neg. rewrite !Qeq_bool_false by done.
    assert (round_magnitude (Qabs x) == round_magnitude (Qabs y))%Q as Hr.
    { apply round_magnitude_comp; [by apply Qabs_pos_nonzero |].
      by rewrite Heq. }
    rewrite (Qle_bool_comp _ _ _ Hr).
    assert (Qle_bool 0 x = Qle_bool 0 y) as -> by (by apply Qle_bool_comp).
    destruct (Qle_bool (2 ^ 1024) _); [done |].
    f_equal. apply Qred_complete. destruct (negb _); by rewrite Hr.
Qed.

Lemma round64_1 : round64 1 = Num 1.
Proof. vm_compute. reflexivity. Qed.

Lemma round64_not_NaN (q : Q) : round64 q <> NaN.
Proof.
  unfold round64. destruct (is_zero q); [done |].
  destruct (Qle_bool _ _); [by destruct (is_neg q) | done].
Qed.

Lemma Qabs_opp_eq (q : Q) : Qabs (- q) = Qabs q.
Proof. destruct q as [n d]. unfold Qabs, Qopp. cbn. by rewrite Z.abs_opp. Qed.

Lemma Qopp_opp_eq (q : Q) : (- - q)%Q = q.
Proof. destruct q as [n d]. unfold Qopp. cbn. by rewrite Z.opp_involutive. Qed.

Lemma round64_opp (q : Q) : round64 (- q) = neg (round64 q).
Proof.
  destruct (Qeq_dec q 0) as [Hz | Hz].
  - rewrite !round64_zero; [done | done | by rewrite Hz].
  - assert (~ - q == 0)%Q as Hz' by (intros H; apply Hz; lra).
    unfold round64, is_zero, is_neg. rewrite !Qeq_bool_false by done.
    rewrite Qabs_opp_eq. set (r := round_magnitude (Qabs q)).
    destruct (Qlt_le_dec q 0) as [Hneg | Hpos].
    + assert (Qle_bool 0 q = false) as -> by (apply Qle_bool_false; lra).
      assert (Qle_bool 0 (- q) = true) as -> by (apply Qle_bool_iff; lra).
      cbn [negb]. destruct (Qle_bool _ r); [done |]. cbn [neg].
      by rewrite Qred_opp, Qopp_opp_eq.
    + assert (Qle_bool 0 q = true) as -> by (by apply Qle_bool_iff).
      assert (Qle_bool 0 (- q) = false) as -> by (apply Qle_bool_false; lra).
      cbn [negb]. destruct (Qle_bool _ r); [done |]. cbn [neg].
      by rewrite Qred_opp.
Qed.

Lemma round64_inject_Z_abs (k : Z) :
  Z.abs k <= 2 ^ 53 -> round64 (inject_Z k) = Num (inject_Z k).
Proof.
  intros Hk. destruct (Z.le_gt_cases 0 k) as [Hpos | Hneg].
  - apply round64_inject_Z. lia.
  - replace k with (- - k) by lia. rewrite inject_Z_opp, round64_opp.
    rewrite round64_inject_Z by lia. reflexivity.
Qed.

Lemma add_of_Z_abs (a b : Z) :
  Z.abs (a + b) <= 2 ^ 53 -> add (of_Z a) (of_Z b) = of_Z (a + b).
Proof.
  intros Hab. unfold add, of_Z.
  rewrite <- round64_inject_Z_abs by lia.
  assert (round64 (inject_Z a + inject_Z b)
          = round64 (inject_Z (a + b))) as ->; [| done].
  by rewrite inject_Z_plus.
Qed.
(** ** The validator *)

(** Case analysis on the four tests of [validateForm]. *)
Ltac validator_cases data :=
  unfold newErrors;
  destruct (le (Number (FormData.principal data)) zero),
           (le (Number (FormData.tenure data)) zero),
           (lt (Number (FormData.rate data)) zero),
           (lt (Number (FormData.moratorium data)) zero);
  simplify_map_eq; split; intros H; try done; by inversion H.

Section Validator.

Variable data : FormData.t.

Lemma newErrors_principal :
  is_Some (newErrors data !! "principal")
  <-> le (Number (FormData.principal data)) zero = true.
Proof. validator_cases data. Qed.

Lemma newErrors_tenure :
  is_Some (newErrors data !! "tenure")
  <-> le (Number (FormData.tenure data)) zero = true.
Proof. validator_cases data. Qed.

Lemma newErrors_rate :
  is_Some (newErrors data !! "rate")
  <-> lt (Number (FormData.rate data)) zero = true.
Proof. validator_cases data. Qed.

Lemma newErrors_moratorium :
  is_Some (newErrors data !! "moratorium")
  <-> lt (Number (FormData.moratorium data)) zero = true.
Proof. validator_cases data. Qed.

Lemma newErrors_fields (k : string) :
  is_Some (newErrors data !! k) ->
  k ∈ ["principal"; "tenure"; "rate"; "moratorium"].
Proof.
  unfold newErrors; intros H.
  repeat match type of H with
         | context [if ?c then _ else _] => destruct c
         end;
    repeat match type of H with
           | context [<[?j := _]> _ !! k] =>
               destruct (decide (j = k)) as [<- | ?];
               [ set_solver | rewrite lookup_insert_ne in H by done ]
           end;
    rewrite lookup_empty in H; by inversion H.
Qed.

End Validator.

Lemma size_zero_empty (m : gmap string string) :
  Nat.eqb (size m) 0 = true <-> m = ∅.
Proof.
  rewrite Nat.eqb_eq. apply map_size_empty_iff.
Qed.

(** C4: the error object of [validateForm] has an entry for a field
    exactly when that field's test fails ([principal <= 0],
    [tenure <= 0], [rate < 0], [moratorium < 0], each on the converted
    number and independently of the other fields), it has no other
    entries, and [validateForm] returns true exactly when the object is
    empty. *)
Theorem validateForm_one_error_per_invalid_field
    (data : FormData.t) (st : State.t) :
  let errs := State.errors (validateForm data st).1 in
  (is_Some (errs !! "principal")
     <-> le (Number (FormData.principal data)) zero = true) /\
  (is_Some (errs !! "tenure")
     <-> le (Number (FormData.tenure data)) zero = true) /\
  (is_Some (errs !! "rate")
     <-> lt (Number (FormData.rate data)) zero = true) /\
  (is_Some (errs !! "moratorium")
     <-> lt (Number (FormData.moratorium data)) zero = true) /\
  (forall k, is_Some (errs !! k) ->
             k ∈ ["principal"; "tenure"; "rate"; "moratorium"]) /\
  ((validateForm data st).2 = true <-> errs = ∅).
Proof.
  simpl. repeat split.
  all: try apply newErrors_principal.
  all: try apply newErrors_tenure.
  all: try apply newErrors_rate.
  all: try apply newErrors_moratorium.
  - apply newErrors_fields.
  - apply size_zero_empty.
  - apply size_zero_empty.
Qed.

(** ** The loop *)

Lemma lt_Num (x y : Q) : lt (Num x) (Num y) = true <-> (x < y)%Q.
Proof.
  simpl. rewrite negb_true_iff. apply Qle_bool_false.
Qed.

Lemma le_Num (x y : Q) : le (Num x) (Num y) = true <-> (x <= y)%Q.
Proof. simpl. apply Qle_bool_iff. Qed.

Lemma inject_Z_lt_ceiling (i : Z) (T : Q) :
  (inject_Z i < T)%Q <-> i < Qceiling T.
Proof.
  split; intros H.
  - rewrite Zlt_Qlt. eapply Qlt_le_trans; [exact H | apply Qle_ceiling].
  - apply Qle_lt_trans with (inject_Z (Qceiling T - 1)).
    + rewrite <- Zle_Qle. lia.
    + apply Qceiling_lt.
Qed.

Lemma loop_condition (i : Z) (T : Q) :
  lt (of_Z i) (Num T) = true <-> i < Qceiling T.
Proof. unfold of_Z. rewrite lt_Num. apply inject_Z_lt_ceiling. Qed.

Section Loop.

Variables (frequency : string) (T : Q) (periodicRate emi : number).

(** The counter is exact as long as it stays within [2 ^ 53], and the
    loop then runs once for each whole number below [totalPeriods],
    provided the array can hold the rows. *)
Lemma schedule_loop_rows (n : nat) :
  forall fuel i balance currentDate newSchedule,
    0 <= i -> Qceiling T <= 2 ^ 53 ->
    Z.to_nat (Qceiling T - i) = n ->
    Z.of_nat (length newSchedule) + Z.of_nat n <= max_periods ->
    (n < fuel)%nat ->
    schedule_loop fuel frequency (Num T) periodicRate emi
      (of_Z i) balance currentDate newSchedule
    = Some (newSchedule
              ++ rows n frequency periodicRate emi balance currentDate).
Proof.
  induction n as [| n IH];
    intros fuel i balance currentDate acc Hi HT Hn Hlen Hfuel;
    destruct fuel as [| fuel]; try lia; cbn [schedule_loop rows make_row].
  - destruct (lt (of_Z i) (Num T)) eqn:Hc.
    + apply loop_condition in Hc. lia.
    + by rewrite app_nil_r.
  - destruct (lt (of_Z i) (Num T)) eqn:Hc.
    + assert ((Z.of_nat (length acc) <? max_periods) = true) as ->
        by (apply Z.ltb_lt; lia).
      rewrite add_of_Z by lia.
      rewrite (IH fuel); [by rewrite <- app_assoc | lia | lia | lia | | lia].
      rewrite length_app. cbn [length]. lia.
    + assert (~ i < Qceiling T) by (rewrite <- loop_condition, Hc; done).
      lia.
Qed.

Lemma rows_length (n : nat) :
  forall balance currentDate,
    length (rows n frequency periodicRate emi balance currentDate) = n.
Proof.
  induction n as [| n IH]; intros; simpl; [done | by rewrite IH].
Qed.

(** Past [2 ^ 53] the counter no longer changes: [2 ^ 53 + 1] rounds
    back to [2 ^ 53]. *)
Lemma counter_saturates : add (of_Z (2 ^ 53)) (of_Z 1) = of_Z (2 ^ 53).
Proof. vm_compute. reflexivity. Qed.

(** An infinite period count keeps the loop condition true for ever. *)
Lemma schedule_loop_diverges (fuel : nat) :
  forall i balance currentDate newSchedule,
    0 <= i <= 2 ^ 53 ->
    schedule_loop fuel frequency PInf periodicRate emi
      (of_Z i) balance currentDate newSchedule = None.
Proof.
  induction fuel as [| fuel IH]; intros i b d acc Hi; [done |].
  cbn [schedule_loop make_row lt of_Z].
  destruct (_ <? _); [| done].
  destruct (Z.eq_dec i (2 ^ 53)) as [-> | Hne].
  - rewrite counter_saturates. apply IH. lia.
  - fold (of_Z i). rewrite add_of_Z by lia. apply IH. lia.
Qed.

(** Nor does the loop end when the period count is beyond what an
    array holds: the counter is then the length of the array, and [push]
    throws before the count is reached. *)
Lemma schedule_loop_array_full (fuel : nat) :
  (inject_Z max_periods < T)%Q ->
  forall balance currentDate newSchedule,
    Z.of_nat (length newSchedule) <= max_periods ->
    schedule_loop fuel frequency (Num T) periodicRate emi
      (of_Z (Z.of_nat (length newSchedule))) balance currentDate newSchedule
    = None.
Proof.
  intros HT. induction fuel as [| fuel IH]; intros b d acc Hlen; [done |].
  cbn [schedule_loop make_row].
  assert (lt (of_Z (Z.of_nat (length acc))) (Num T) = true) as ->.
  { apply lt_Num. eapply Qle_lt_trans; [| exact HT].
    by rewrite <- Zle_Qle. }
  destruct (Z.ltb_spec (Z.of_nat (length acc)) max_periods) as [Hlt | _];
    [| done].
  unfold max_periods in Hlt. rewrite add_of_Z by lia.
  replace (Z.of_nat (length acc) + 1)
    with (Z.of_nat (length (acc ++ [ScheduleRow.mk d emi (mul b periodicRate)
                                     (sub emi (mul b periodicRate))
                                     (Math_max zero
                                        (sub b (sub emi (mul b periodicRate))))])))
    by (rewrite length_app; cbn [length]; lia).
  apply IH. rewrite length_app. cbn [length]. unfold max_periods. lia.
Qed.

End Loop.

(** ** [calculateSchedule] on validated input *)

Lemma table_cases (f : string) (n : number) :
  periodsPerYear_table !! f = Some n ->
  (f = "monthly" /\ n = of_Z 12) \/ (f = "quarterly" /\ n = of_Z 4) \/
  (f = "semi-annually" /\ n = of_Z 2) \/ (f = "annually" /\ n = of_Z 1).
Proof.
  unfold periodsPerYear_table. intros H.
  destruct (decide (f = "monthly")) as [-> | ?]; [simplify_map_eq; tauto |].
  destruct (decide (f = "quarterly")) as [-> | ?]; [simplify_map_eq; tauto |].
  destruct (decide (f = "semi-annually")) as [-> | ?]; [simplify_map_eq; tauto |].
  destruct (decide (f = "annually")) as [-> | ?]; [simplify_map_eq; tauto |].
  simplify_map_eq.
Qed.

Lemma of_Z_inj (a b : Z) : of_Z a = of_Z b -> a = b.
Proof. unfold of_Z, inject_Z. congruence. Qed.

Lemma table_ppy (f : string) (ppy : Z) :
  periodsPerYear_table !! f = Some (of_Z ppy) ->
  ppy = 12 \/ ppy = 4 \/ ppy = 2 \/ ppy = 1.
Proof.
  intros H. apply table_cases in H.
  destruct H as [[_ H] | [[_ H] | [[_ H] | [_ H]]]];
    apply of_Z_inj in H; lia.
Qed.

(** A finite result of [Number] is a binary64 number. *)
Lemma Number_on_grid (s : string) (q : Q) : Number s = Num q -> on_grid q.
Proof.
  unfold Number, StringToNumber, RoundMVResult.
  destruct (StringMV s); try done. apply round64_on_grid.
Qed.

(** The least positive binary64 number. *)
Lemma on_grid_pos (q : Q) : on_grid q -> (0 < q)%Q -> (2 ^ (- 1074) <= q)%Q.
Proof.
  intros [k Hk] Hq. pose proof (pow2_pos (- 1074)) as Hp.
  assert (0 < k) as Hk0.
  { destruct (Z.le_gt_cases k 0) as [Hle | Hgt]; [| done].
    exfalso. assert (inject_Z k <= 0)%Q as H0
      by (change 0%Q with (inject_Z 0); by rewrite <- Zle_Qle).
    rewrite Hk in Hq. nra. }
  assert (1 <= inject_Z k)%Q as H1
    by (change 1%Q with (inject_Z 1); rewrite <- Zle_Qle; lia).
  rewrite Hk. nra.
Qed.

(** The period count of a positive tenure is positive or infinite. *)
Lemma totalPeriods_pos (t : Q) (ppy : Z) :
  on_grid t -> (0 < t)%Q -> 1 <= ppy ->
  totalPeriods_of t ppy = PInf \/
  exists T, totalPeriods_of t ppy = Num T /\ (0 < T)%Q.
Proof.
  intros Hg Ht Hppy. unfold totalPeriods_of, mul, of_Z.
  pose proof (on_grid_pos t Hg Ht) as Hmin.
  pose proof (pow2_pos (- 1074)) as Hp.
  assert (1 <= inject_Z ppy)%Q as H1
    by (change 1%Q with (inject_Z 1); by rewrite <- Zle_Qle).
  assert (0 < t * inject_Z ppy)%Q as Hpos by nra.
  destruct (round64_pos _ Hpos) as [[-> _] | [-> _]]; [by left |].
  right. eexists. split; [done |]. rewrite Qred_correct.
  eapply Qlt_le_trans; [exact Hp |].
  assert (2 ^ (- 1074) == inject_Z 1 * 2 ^ (- 1074))%Q as ->
    by (change (inject_Z 1) with 1%Q; ring).
  apply round_magnitude_ge_grid; try done; try lia.
  change (inject_Z 1) with 1%Q. nra.
Qed.

Section ValidatedInput.

Variables (st : State.t) (date : Date) (p t r m : Q) (ppy : Z).
Hypothesis V : Validated st date p t r m ppy.

Lemma validated_newErrors : newErrors (State.formData st) = ∅.
Proof.
  destruct V. unfold newErrors.
  rewrite v_principal0, v_tenure0, v_rate0, v_moratorium0.
  assert (le (Num p) zero = false) as ->
    by (simpl; by apply Qle_bool_false).
  assert (le (Num t) zero = false) as ->
    by (simpl; by apply Qle_bool_false).
  assert (lt (Num r) zero = false) as ->
    by (simpl; rewrite negb_false_iff; by apply Qle_bool_iff).
  assert (lt (Num m) zero = false) as ->
    by (simpl; rewrite negb_false_iff; by apply Qle_bool_iff).
  done.
Qed.

Lemma ppy_pos : 0 < ppy.
Proof. destruct V. apply table_ppy in v_frequency0. lia. Qed.

(** The period count is a positive number of at most [max_periods]. *)
Lemma validated_totalPeriods :
  exists T,
    totalPeriods_of t ppy = Num T /\
    (0 < T)%Q /\ 0 < Qceiling T <= max_periods.
Proof.
  pose proof ppy_pos as Hppy. destruct V.
  destruct (totalPeriods_pos t ppy) as [Hinf | (T & HT & Hpos)];
    [by eapply Number_on_grid | done | lia | |].
  - by rewrite Hinf in v_periods0.
  - exists T. split; [done |]. split; [done |].
    rewrite HT in v_periods0. apply le_Num in v_periods0.
    split.
    + apply inject_Z_lt_ceiling. done.
    + change max_periods with (Qceiling (inject_Z max_periods)) at 1.
      rewrite Qceiling_Z. rewrite <- (Qceiling_Z max_periods).
      by apply Qceiling_resp_le.
Qed.

Lemma validated_iterations_pos :
  (0 < iterations (totalPeriods_of t ppy))%nat.
Proof.
  destruct validated_totalPeriods as (T & -> & _ & HT & _).
  unfold iterations. lia.
Qed.

Lemma validated_calculateSchedule (fuel : nat) :
  (iterations (totalPeriods_of t ppy) < fuel)%nat ->
  calculateSchedule fuel st
  = Some (State.mk (Some date) (schedule_of st date p t r m ppy) false ∅
            (State.formData st)).
Proof.
  intros Hfuel. unfold calculateSchedule, validateForm.
  rewrite validated_newErrors, map_size_empty. cbn [Nat.eqb negb].
  cbn [State.formData State.setLoading State.setErrors State.date].
  destruct validated_totalPeriods as (T & HT & _ & _ & Hmax).
  unfold schedule_of, emi_of.
  destruct V. rewrite v_date0, v_principal0, v_tenure0, v_rate0, v_moratorium0.
  unfold lookup_periodsPerYear. rewrite v_frequency0.
  pose proof (table_ppy _ _ v_frequency0) as Hppy.
  assert (not_value (NumberValue (of_Z ppy)) = false) as ->
    by (destruct Hppy as [-> | [-> | [-> | ->]]]; reflexivity).
  cbn [ToNumber].
  fold (totalPeriods_of t ppy) (periodicRate_of r ppy) (first_date date m).
  rewrite HT in Hfuel |- *. unfold iterations in Hfuel |- *.
  rewrite (schedule_loop_rows _ _ _ _ (Z.to_nat (Qceiling T)));
    [| lia | unfold max_periods in Hmax; lia | f_equal; lia
     | cbn [length]; unfold max_periods in *; lia | exact Hfuel].
  unfold State.setLoading, State.setSchedule, State.setErrors.
  cbn [State.date State.schedule State.loading State.errors State.formData app].
  by rewrite v_date0.
Qed.

End ValidatedInput.

Ltac validated := split; by vm_compute.

(** ** Period count *)

(** C2, as amended: for validated input the product
    [tenure * periodsPerYear], as the code computes it in binary64, is
    a finite number [T] above 0; the loop ends and the schedule has the
    least whole number of periods that is not below [T], at least one;
    that is [T] itself whenever [T] is a whole number. *)
Theorem schedule_length_is_ceiling
    (st : State.t) (date : Date) (p t r m : Q) (ppy : Z) (fuel : nat)
    (V : Validated st date p t r m ppy)
    (Hfuel : (iterations (totalPeriods_of t ppy) < fuel)%nat) :
  exists st' T,
    mul (Num t) (of_Z ppy) = Num T /\
    calculateSchedule fuel st = Some st' /\
    length (State.schedule st') = Z.to_nat (Qceiling T) /\
    (0 < length (State.schedule st'))%nat /\
    (forall n : Z, (T == inject_Z n)%Q ->
                   length (State.schedule st') = Z.to_nat n).
Proof.
  destruct (validated_totalPeriods _ _ _ _ _ _ _ V) as (T & HT & _ & Hpos & _).
  eexists _, T. split; [exact HT |].
  split; [by apply validated_calculateSchedule |].
  cbn [State.schedule]. unfold schedule_of. rewrite rows_length, HT.
  unfold iterations. split; [reflexivity |]. split; [lia |].
  intros n Hn. rewrite Hn, Qceiling_Z. reflexivity.
Qed.

Lemma half_year_loan_validated :
  Validated half_year_loan jan_1_2024 1000 (1 # 2) (225 # 4) 0 1.
Proof. validated. Qed.

Lemma schedule_length_is_ceiling_witness :
  exists st' T,
    mul (Num (1 # 2)) (of_Z 1) = Num T /\
    calculateSchedule 2 half_year_loan = Some st' /\
    length (State.schedule st') = Z.to_nat (Qceiling T) /\
    (0 < length (State.schedule st'))%nat /\
    (forall n : Z, (T == inject_Z n)%Q ->
                   length (State.schedule st') = Z.to_nat n).
Proof.
  apply (schedule_length_is_ceiling half_year_loan jan_1_2024
           1000 (1 # 2) (225 # 4) 0 1 2).
  - exact half_year_loan_validated.
  - vm_compute. lia.
Defined.

(** C2 as stated fails for a tenure of half a year with one period per
    year: the input is validated, the schedule has one period, and
    [tenure * periodsPerYear] is 1/2. *)
Lemma half_year_loan_has_one_period :
  Validated half_year_loan jan_1_2024 1000 (1 # 2) (225 # 4) 0 1 /\
  mul (Num (1 # 2)) (of_Z 1) = Num (1 # 2) /\
  exists st',
    calculateSchedule 2 half_year_loan = Some st' /\
    length (State.schedule st') = 1%nat /\
    ~ (inject_Z (Z.of_nat (length (State.schedule st')))
       == (1 # 2) * inject_Z 1)%Q.
Proof.
  split; [exact half_year_loan_validated |].
  split; [vm_compute; reflexivity |].
  eexists. split; [vm_compute; reflexivity |].
  split; [reflexivity |]. by vm_compute.
Qed.
(** ** Frequencies outside the table *)


Lemma lt_NaN_r (a : number) : lt a NaN = false.
Proof. by destruct a. Qed.




(** ** Input that is not a number *)

(** C10: "abc" converts to NaN, both comparisons of NaN with 0 are
    false, and [validateForm] accepts a form whose principal, tenure,
    rate or moratorium is "abc" with an empty error object; with such a
    principal [calculateSchedule] goes on to store twelve periods whose
    payment is NaN. *)
Theorem non_numeric_field_is_accepted :
  Number "abc" = NaN /\
  le NaN zero = false /\ lt NaN zero = false /\
  Forall (fun st =>
            validateForm (State.formData st) st
            = (State.setErrors ∅ st, true))
    [non_numeric_principal; non_numeric_tenure;
     non_numeric_rate; non_numeric_moratorium] /\
  exists st',
    calculateSchedule 13 non_numeric_principal = Some st' /\
    length (State.schedule st') = 12%nat /\
    Forall (fun row => ScheduleRow.payment row = NaN) (State.schedule st').
Proof.
  split; [by vm_compute |]. split; [done |]. split; [done |].
  split.
  - repeat constructor.
  - eexists. split; [vm_compute; reflexivity |].
    split; [reflexivity |]. repeat constructor.
Qed.

(** ** A rate of zero *)

(** C1 fails on the code: for 12000 over one year, monthly, at 0% the
    input is validated and twelve periods are stored, but the payment is
    [0 / 0], so payment, principal part and balance of every period are
    NaN, and no period has a payment of 1000. *)
Theorem zero_rate_schedule_is_NaN :
  Validated zero_rate_loan jan_1_2024 12000 1 0 0 12 /\
  exists st',
    calculateSchedule 13 zero_rate_loan = Some st' /\
    length (State.schedule st') = 12%nat /\
    Forall (fun row =>
              ScheduleRow.payment row = NaN /\
              ScheduleRow.principal row = NaN /\
              ScheduleRow.balance row = NaN /\
              strict_eq (ScheduleRow.payment row) (of_Z 1000) = false)
      (State.schedule st').
Proof.
  split; [validated |].
  eexists. split; [vm_compute; reflexivity |].
  split; [reflexivity |]. repeat constructor.
Qed.


Lemma zero_rate_loan_validated :
  Validated zero_rate_loan jan_1_2024 12000 1 0 0 12.
Proof. validated. Qed.

(** ** The loop body *)



Lemma rows_S (f : string) (pr emi b : number) (d : Date) (n : nat) :
  rows (S n) f pr emi b d
  = ScheduleRow.mk d emi (mul b pr) (sub emi (mul b pr))
      (Math_max zero (next_balance pr emi b))
    :: rows n f pr emi (next_balance pr emi b) (increment_date f d).
Proof. reflexivity. Qed.



(** ** Amortization *)

Lemma reference_loan_validated :
  Validated reference_loan jan_1_2024 100000 1 12 0 12.
Proof. validated. Qed.





(** For half a year with one period per year at 56.25% the input is
    validated and the balance of the last period is 0, yet the
    principal parts add up to 2250, not to the principal of 1000: the
    one payment is computed for half a period and the floor at 0 hides
    the overpayment. *)
Lemma half_year_loan_overpays :
  Validated half_year_loan jan_1_2024 1000 (1 # 2) (225 # 4) 0 1 /\
  exists st',
    calculateSchedule 2 half_year_loan = Some st' /\
    last (ScheduleRow.balance <$> State.schedule st') = Some zero /\
    strict_eq (total_principal (State.schedule st')) (of_Z 2250) = true /\
    strict_eq (total_principal (State.schedule st')) (of_Z 1000) = false.
Proof.
  split; [exact half_year_loan_validated |].
  eexists. split; [vm_compute; reflexivity |]. by vm_compute.
Qed.

(** For 100000 over one year, monthly, at 12% the balance of the last
    period is [37 / 2 ^ 39], about 6.7e-11, and not 0, and the principal
    parts do not add up to 100000. *)
Lemma reference_loan_leaves_a_remainder :
  exists st',
    calculateSchedule 13 reference_loan = Some st' /\
    last (ScheduleRow.balance <$> State.schedule st')
      = Some (Num (37 # 2 ^ 39)) /\
    strict_eq (total_principal (State.schedule st')) (of_Z 100000) = false /\
    exists S, exact_sum (ScheduleRow.principal <$> State.schedule st')
              = Some S /\ (S < 100000)%Q.
Proof.
  eexists. split; [vm_compute; reflexivity |].
  split; [reflexivity |]. split; [reflexivity |].
  eexists. split; [vm_compute; reflexivity |]. by vm_compute.
Qed.

(** ** Balance order *)

(** C7 fails on the code: for 12000 over one year, monthly, at 0% the
    input is validated but every balance is NaN, so no balance is at
    least 0 and no balance is at most the one before it. *)
Theorem zero_rate_balances_not_ordered :
  Validated zero_rate_loan jan_1_2024 12000 1 0 0 12 /\
  exists st',
    calculateSchedule 13 zero_rate_loan = Some st' /\
    ~ non_increasing (ScheduleRow.balance <$> State.schedule st') /\
    ~ never_negative (ScheduleRow.balance <$> State.schedule st').
Proof.
  split; [exact zero_rate_loan_validated |].
  eexists. split; [vm_compute; reflexivity |]. split.
  - intros H. by specialize (H 0%nat NaN NaN eq_refl eq_refl).
  - intros H. by inversion H.
Qed.

(** ** Payment components *)

(** C8 fails on the code: for 12000 over one year, monthly, at 0% the
    input is validated but the payment is NaN, so in no period do
    interest and principal part add up to the payment, and no two
    periods have equal payments. *)
Theorem zero_rate_payment_split_fails :
  Validated zero_rate_loan jan_1_2024 12000 1 0 0 12 /\
  exists st',
    calculateSchedule 13 zero_rate_loan = Some st' /\
    Forall (fun row =>
              strict_eq (add (ScheduleRow.interest row)
                             (ScheduleRow.principal row))
                        (ScheduleRow.payment row) = false)
      (State.schedule st') /\
    ~ payment_split (State.schedule st') /\
    ~ payment_constant (State.schedule st').
Proof.
  split; [exact zero_rate_loan_validated |].
  eexists. split; [vm_compute; reflexivity |]. split; [| split].
  - repeat constructor.
  - intros H. by inversion H.
  - intros H.
    by pose proof (H _ _ (list_elem_of_here _ _) (list_elem_of_here _ _)).
Qed.

(** ** A rate of zero, in general *)

Lemma sub_NaN_l (a : number) : sub NaN a = NaN.
Proof. reflexivity. Qed.

Lemma sub_NaN_r (a : number) : sub a NaN = NaN.
Proof. by destruct a. Qed.

(** Once the payment is NaN, so are the principal part and the balance
    of every period. *)
Lemma rows_NaN (frequency : string) (pr : number) (n : nat) :
  forall b d,
    Forall (fun row =>
              ScheduleRow.payment row = NaN /\
              ScheduleRow.principal row = NaN /\
              ScheduleRow.balance row = NaN)
      (rows n frequency pr NaN b d).
Proof.
  induction n as [| n IH]; intros b d; [constructor |].
  rewrite rows_S. unfold next_balance. rewrite sub_NaN_l, sub_NaN_r.
  constructor; [done | apply IH].
Qed.

Lemma Math_pow_1_whole (T : Q) (N : Z) :
  (T == inject_Z N)%Q -> Math_pow (Num 1) (Num T) = Num 1.
Proof.
  intros HT. unfold Math_pow. destruct (is_zero T); [done |].
  change (is_zero 1) with false. cbn iota.
  unfold pow_finite, is_integral.
  assert (Qfloor T = N) as -> by (rewrite HT; apply Qfloor_Z).
  assert (Qeq_bool (inject_Z N) T = true) as ->
    by (apply Qeq_bool_iff; by rewrite HT).
  rewrite (round64_comp _ 1); [apply round64_1 | apply Qpower_1].
Qed.

(** The payment is [0 / 0] for every validated input with a rate of 0
    and a whole number of periods. *)
Lemma zero_rate_emi_NaN (p t r : Q) (ppy N : Z) :
  (r == 0)%Q -> 0 < ppy ->
  totalPeriods_of t ppy = Num (inject_Z N) ->
  emi_of p t r ppy = NaN.
Proof.
  intros Hr Hppy HN. unfold emi_of, compute_emi. rewrite HN.
  assert (periodicRate_of r ppy = Num 0) as ->.
  { unfold periodicRate_of.
    assert (div (Num r) (of_Z 100) = Num 0) as ->.
    { unfold div, of_Z. change (is_zero (inject_Z 100)) with false.
      cbn iota. apply round64_zero. rewrite Hr. reflexivity. }
    unfold div, of_Z, is_zero.
    rewrite (Qeq_bool_false (inject_Z ppy) 0)
      by (pose proof (inject_Z_pos ppy Hppy); lra).
    apply round64_zero. reflexivity. }
  assert (add (of_Z 1) (Num 0) = Num 1) as -> by (vm_compute; reflexivity).
  rewrite (Math_pow_1_whole _ N) by reflexivity.
  assert (mul (Num p) (Num 0) = Num 0) as ->
    by (apply round64_zero; ring).
  vm_compute. reflexivity.
Qed.

Lemma zero_rate_schedule_NaN
    (st : State.t) (date : Date) (p t r m : Q) (ppy N : Z) (fuel : nat)
    (V : Validated st date p t r m ppy)
    (Hr : (r == 0)%Q)
    (HN : totalPeriods_of t ppy = Num (inject_Z N))
    (Hfuel : (iterations (totalPeriods_of t ppy) < fuel)%nat) :
  exists st',
    calculateSchedule fuel st = Some st' /\
    length (State.schedule st') = Z.to_nat N /\
    Forall (fun row =>
              ScheduleRow.payment row = NaN /\
              ScheduleRow.principal row = NaN /\
              ScheduleRow.balance row = NaN)
      (State.schedule st').
Proof.
  eexists. split; [by apply validated_calculateSchedule |].
  cbn [State.schedule]. unfold schedule_of.
  rewrite (zero_rate_emi_NaN p t r ppy N Hr (ppy_pos _ _ _ _ _ _ _ V) HN).
  split.
  - rewrite rows_length, HN. unfold iterations. by rewrite Qceiling_Z.
  - apply rows_NaN.
Qed.
(** ** Day arithmetic *)

Lemma DayFromYear_succ (y : Z) :
  DayFromYear (y + 1) = DayFromYear y + DaysInYear y.
Proof.
  unfold DayFromYear, DaysInYear, leap_days, is_leap.
  destruct (y mod 4 =? 0) eqn:H4; destruct (y mod 100 =? 0) eqn:H100;
    destruct (y mod 400 =? 0) eqn:H400; cbn [andb orb negb];
    rewrite ?Z.eqb_eq, ?Z.eqb_neq in *;
    Z.div_mod_to_equations; lia.
Qed.

Lemma DayFromYear_mono (a b : Z) : a <= b -> DayFromYear a <= DayFromYear b.
Proof.
  intros H. unfold DayFromYear. Z.div_mod_to_equations. lia.
Qed.

Lemma YearFromTime_spec (d : Z) :
  DayFromYear (YearFromTime d) <= d < DayFromYear (YearFromTime d + 1).
Proof.
  unfold YearFromTime.
  set (g := 1970 + 400 * d / 146097).
  assert (DayFromYear (g - 1) <= d < DayFromYear (g + 2)) as Hg.
  { unfold DayFromYear, g. Z.div_mod_to_equations. lia. }
  destruct (DayFromYear (g + 1) <=? d) eqn:H1;
    [| destruct (DayFromYear g <=? d) eqn:H2];
    rewrite ?Z.leb_le, ?Z.leb_gt in *.
  - replace (g + 1 + 1) with (g + 2) by lia. lia.
  - lia.
  - replace (g - 1 + 1) with g by lia. lia.
Qed.

Lemma YearFromTime_unique (y d : Z) :
  DayFromYear y <= d < DayFromYear (y + 1) -> YearFromTime d = y.
Proof.
  intros H. pose proof (YearFromTime_spec d) as Hs.
  destruct (Z.lt_trichotomy (YearFromTime d) y) as [Hlt | [Heq | Hgt]];
    [| exact Heq |].
  - pose proof (DayFromYear_mono (YearFromTime d + 1) y). lia.
  - pose proof (DayFromYear_mono (y + 1) (YearFromTime d)). lia.
Qed.

Lemma leap_days_range (y : Z) : 0 <= leap_days y <= 1.
Proof. unfold leap_days. destruct (is_leap y); lia. Qed.

Lemma DayWithinYear_range (d : Z) :
  0 <= DayWithinYear d < 365 + InLeapYear d.
Proof.
  unfold DayWithinYear, InLeapYear.
  pose proof (YearFromTime_spec d) as H.
  rewrite DayFromYear_succ in H. unfold DaysInYear in H. lia.
Qed.

Ltac month_cases m :=
  assert (m = 0 \/ m = 1 \/ m = 2 \/ m = 3 \/ m = 4 \/ m = 5 \/ m = 6 \/
          m = 7 \/ m = 8 \/ m = 9 \/ m = 10 \/ m = 11) as Hcases by lia;
  repeat destruct Hcases as [-> | Hcases]; [.. | subst m].

Lemma month_of_day_spec (w leap : Z) :
  0 <= leap <= 1 -> 0 <= w < 365 + leap ->
  let m := month_of_day w leap in
  0 <= m <= 11 /\
  month_start m leap <= w < month_start m leap + month_length m leap.
Proof.
  intros Hl Hw. unfold month_of_day.
  repeat match goal with
         | |- context [?a <? ?b] =>
             destruct (Z.ltb_spec a b)
         end; cbn; lia.
Qed.

Lemma month_of_day_start (m leap dt : Z) :
  0 <= leap <= 1 -> 0 <= m <= 11 -> 1 <= dt <= month_length m leap ->
  month_of_day (month_start m leap + dt - 1) leap = m.
Proof.
  intros Hl Hm Hdt. month_cases m; cbn in Hdt |- *; unfold month_of_day;
    repeat match goal with
           | |- context [?a <? ?b] => destruct (Z.ltb_spec a b); try lia
           end.
Qed.

Lemma MonthFromTime_range (d : Z) : 0 <= MonthFromTime d <= 11.
Proof.
  unfold MonthFromTime.
  apply month_of_day_spec; [apply leap_days_range | apply DayWithinYear_range].
Qed.

Lemma DateFromTime_range (d : Z) :
  1 <= DateFromTime d <= month_length (MonthFromTime d) (InLeapYear d).
Proof.
  unfold DateFromTime, MonthFromTime.
  pose proof (month_of_day_spec (DayWithinYear d) (InLeapYear d)
                (leap_days_range _) (DayWithinYear_range d)) as H.
  cbn zeta in H. lia.
Qed.

(** A day is recovered from its year, month and day of the month. *)
Lemma MakeDay_fields (d : Z) :
  MakeDay (YearFromTime d) (MonthFromTime d) (DateFromTime d) = d.
Proof.
  pose proof (MonthFromTime_range d) as Hm. unfold MakeDay.
  rewrite Z.div_small, Z.mod_small, Z.add_0_r by lia.
  unfold DateFromTime, DayWithinYear, InLeapYear. lia.
Qed.

(** The fields of a day made from a month in range and a day of the
    month within the month's length. *)
Lemma fields_MakeDay (y m dt : Z) :
  0 <= m <= 11 -> 1 <= dt <= month_length m (leap_days y) ->
  let d := MakeDay y m dt in
  YearFromTime d = y /\ MonthFromTime d = m /\ DateFromTime d = dt.
Proof.
  intros Hm Hdt d.
  assert (d = DayFromYear y + month_start m (leap_days y) + dt - 1) as Hd.
  { unfold d, MakeDay. by rewrite Z.div_small, Z.mod_small, Z.add_0_r by lia. }
  pose proof (leap_days_range y) as Hl.
  assert (0 <= month_start m (leap_days y) + dt - 1 < 365 + leap_days y) as Hw.
  { month_cases m; cbn in Hdt |- *; lia. }
  assert (YearFromTime d = y) as Hy.
  { apply YearFromTime_unique. rewrite DayFromYear_succ. unfold DaysInYear. lia. }
  split; [exact Hy |].
  assert (MonthFromTime d = m) as Hmo.
  { unfold MonthFromTime, DayWithinYear, InLeapYear. rewrite Hy.
    replace (d - DayFromYear y) with (month_start m (leap_days y) + dt - 1) by lia.
    by apply month_of_day_start. }
  split; [exact Hmo |].
  unfold DateFromTime. rewrite Hmo.
  unfold DayWithinYear, InLeapYear. rewrite Hy. lia.
Qed.

Lemma MakeDay_month_day (y m dt : Z) :
  MakeDay y m dt = month_day y m + dt - 1.
Proof. unfold month_day, MakeDay. lia. Qed.

Lemma month_day_succ (y m : Z) : month_day y m + 28 <= month_day y (m + 1).
Proof.
  unfold month_day, MakeDay.
  pose proof (Z.mod_pos_bound m 12 ltac:(lia)) as Hr.
  destruct (Z.eq_dec (m mod 12) 11) as [H11 | H11].
  - assert ((m + 1) / 12 = m / 12 + 1) as -> by (Z.div_mod_to_equations; lia).
    assert ((m + 1) mod 12 = 0) as -> by (Z.div_mod_to_equations; lia).
    rewrite H11, Z.add_assoc, DayFromYear_succ. unfold DaysInYear.
    cbn [month_start].
    generalize (DayFromYear (y + m / 12)), (leap_days (y + m / 12)).
    lia.
  - assert ((m + 1) / 12 = m / 12) as -> by (Z.div_mod_to_equations; lia).
    assert ((m + 1) mod 12 = m mod 12 + 1) as -> by (Z.div_mod_to_equations; lia).
    pose proof (leap_days_range (y + m / 12)) as Hl.
    set (r := m mod 12) in *. set (l := leap_days (y + m / 12)) in *.
    assert (r = 0 \/ r = 1 \/ r = 2 \/ r = 3 \/ r = 4 \/ r = 5 \/ r = 6 \/
            r = 7 \/ r = 8 \/ r = 9 \/ r = 10) as Hc by lia.
    generalize (DayFromYear (y + m / 12)). intros D. clearbody r l.
    repeat destruct Hc as [-> | Hc]; [.. | rewrite Hc];
      match goal with
      | |- context [month_start (?a + 1) _] =>
          let v := eval vm_compute in (a + 1) in change (a + 1) with v
      end; cbn [month_start]; lia.
Qed.

Lemma month_day_le (y m : Z) (n : nat) :
  month_day y m + 28 * Z.of_nat n <= month_day y (m + Z.of_nat n).
Proof.
  induction n as [| n IH].
  - change (Z.of_nat 0) with 0. rewrite (Z.add_0_r m). lia.
  - rewrite Nat2Z.inj_succ.
    replace (m + Z.succ (Z.of_nat n)) with (m + Z.of_nat n + 1) by lia.
    pose proof (month_day_succ y (m + Z.of_nat n)). lia.
Qed.

Lemma month_day_lt (y m k : Z) : 0 < k -> month_day y m < month_day y (m + k).
Proof.
  intros Hk. pose proof (month_day_le y m (Z.to_nat k)) as H.
  rewrite Z2Nat.id in H by lia. lia.
Qed.

Lemma advance_lt (d k : Z) : 0 < k -> d < advance d k.
Proof.
  intros Hk. unfold advance.
  rewrite <- (MakeDay_fields d) at 1.
  rewrite !MakeDay_month_day.
  pose proof (month_day_lt (YearFromTime d) (MonthFromTime d) k Hk). lia.
Qed.

Lemma month_length_ge_28 (m leap : Z) : 0 <= leap -> 28 <= month_length m leap.
Proof.
  intros H. unfold month_length.
  repeat match goal with |- context [match ?x with _ => _ end] => destruct x end;
    lia.
Qed.

Lemma advance_fields (d k : Z) :
  DateFromTime d <= 28 ->
  YearFromTime (advance d k) = YearFromTime d + (MonthFromTime d + k) / 12 /\
  MonthFromTime (advance d k) = (MonthFromTime d + k) mod 12 /\
  DateFromTime (advance d k) = DateFromTime d.
Proof.
  intros H28. unfold advance.
  set (y := YearFromTime d). set (mo := MonthFromTime d + k).
  assert (MakeDay y mo (DateFromTime d)
          = MakeDay (y + mo / 12) (mo mod 12) (DateFromTime d)) as ->.
  { pose proof (Z.mod_pos_bound mo 12 ltac:(lia)).
    unfold MakeDay. rewrite (Z.div_small (mo mod 12)), Z.mod_mod, Z.add_0_r by lia.
    reflexivity. }
  apply fields_MakeDay.
  - pose proof (Z.mod_pos_bound mo 12 ltac:(lia)). lia.
  - pose proof (DateFromTime_range d).
    pose proof (month_length_ge_28 (mo mod 12) (leap_days (y + mo / 12))
                  (proj1 (leap_days_range _))). lia.
Qed.

Lemma advance_advance (d a b : Z) :
  DateFromTime d <= 28 -> advance (advance d a) b = advance d (a + b).
Proof.
  intros H28. destruct (advance_fields d a H28) as (Hy & Hm & Hd).
  unfold advance at 1. rewrite Hy, Hm, Hd. unfold advance, MakeDay.
  set (mo := MonthFromTime d).
  assert (YearFromTime d + (mo + a) / 12 + ((mo + a) mod 12 + b) / 12
          = YearFromTime d + (mo + (a + b)) / 12) as ->
    by (Z.div_mod_to_equations; lia).
  assert (((mo + a) mod 12 + b) mod 12 = (mo + (a + b)) mod 12) as ->
    by (Z.div_mod_to_equations; lia).
  reflexivity.
Qed.


(** ** Dates of a schedule *)

Lemma truncate_nonneg (q : Q) : (0 <= q)%Q -> truncate q = Qfloor q.
Proof.
  intros H. unfold truncate.
  by assert (Qle_bool 0 q = true) as -> by (by apply Qle_bool_iff).
Qed.

Lemma truncate_Z (k : Z) : truncate (inject_Z k) = k.
Proof.
  unfold truncate. destruct (Qle_bool 0 (inject_Z k)).
  - apply Qfloor_Z.
  - apply Qceiling_Z.
Qed.

Lemma TimeClip_valid (z y : Z) : TimeClip z = DateOf y -> y = z.
Proof. unfold TimeClip. destruct (_ <=? _); congruence. Qed.

Lemma TimeClip_cases (z : Z) :
  TimeClip z = DateOf z \/ TimeClip z = InvalidDate.
Proof. unfold TimeClip. destruct (_ <=? _); auto. Qed.

Lemma TimeClip_in_range (z : Z) : in_range (TimeClip z).
Proof.
  unfold TimeClip.
  destruct (Z.leb_spec (Z.abs z) 100000000) as [H | H]; [exact H | exact I].
Qed.

Lemma setMonth_in_range (t : Date) (month : number) :
  in_range (setMonth t month).
Proof.
  destruct t as [| d]; [exact I |].
  destruct month as [| | | q]; [exact I | exact I | exact I |].
  apply TimeClip_in_range.
Qed.

Lemma setFullYear_in_range (t : Date) (year : number) :
  in_range (setFullYear t year).
Proof.
  destruct year as [| | | q]; [exact I | exact I | exact I |].
  apply TimeClip_in_range.
Qed.

Lemma increment_date_in_range (f : string) (t : Date) :
  in_range (increment_date f t).
Proof.
  unfold increment_date.
  repeat case_bool_decide;
    first [apply setMonth_in_range | apply setFullYear_in_range].
Qed.

(** The years of the dates in range. *)
Lemma YearFromTime_in_range (d : Z) :
  Z.abs d <= 100000000 -> - 300000 <= YearFromTime d <= 300000.
Proof.
  intros Hd. pose proof (YearFromTime_spec d) as [Hlo Hhi].
  split.
  - destruct (Z.le_gt_cases (- 300000) (YearFromTime d)); [done |].
    pose proof (DayFromYear_mono (YearFromTime d + 1) (- 300000)
                  ltac:(lia)) as H1.
    assert (DayFromYear (- 300000) < - 100000000) by (by vm_compute). lia.
  - destruct (Z.le_gt_cases (YearFromTime d) 300000); [done |].
    pose proof (DayFromYear_mono 300000 (YearFromTime d) ltac:(lia)) as H1.
    assert (100000000 < DayFromYear 300000) by (by vm_compute). lia.
Qed.

Lemma addMonths_valid (d k : Z) :
  0 <= k <= 12 -> addMonths (DateOf d) k = TimeClip (advance d k).
Proof.
  intros Hk. pose proof (MonthFromTime_range d) as Hm.
  unfold addMonths, setMonth, getMonth, advance.
  rewrite add_of_Z by lia. unfold of_Z. by rewrite truncate_Z.
Qed.

Lemma addMonths_invalid (k : Z) : addMonths InvalidDate k = InvalidDate.
Proof. reflexivity. Qed.

Lemma Qfloor_ceiling_Z (m : Q) (k : Z) :
  (m == inject_Z k)%Q -> Qfloor m = k /\ Qceiling m = k.
Proof. intros ->. by rewrite Qfloor_Z, Qceiling_Z. Qed.

(** The first date: the start moved on by a whole number of months,
    the moratorium rounded down or up. *)
Lemma first_date_valid (s : Z) (m : Q) :
  (0 <= m)%Q -> (m <= inject_Z (2 ^ 52))%Q ->
  exists k,
    Qfloor m <= k <= Qceiling m /\
    first_date (DateOf s) m = TimeClip (advance s k).
Proof.
  intros Hm Hmax. pose proof (MonthFromTime_range s) as Hmo.
  pose proof (Qfloor_le m) as Hfl. pose proof (Qle_ceiling m) as Hce.
  assert (0 <= Qfloor m) as Hf0
    by (change 0 with (Qfloor 0); by apply Qfloor_resp_le).
  assert (Qceiling m <= 2 ^ 52) as Hc52.
  { rewrite <- (Qceiling_Z (2 ^ 52)). by apply Qceiling_resp_le. }
  pose proof (Qle_floor_ceiling m) as Hfc. rewrite <- Zle_Qle in Hfc.
  unfold first_date, setMonth, getMonth, advance, of_Z, add.
  set (mo := MonthFromTime s) in *.
  assert (0 <= inject_Z mo)%Q as Hmo0 by (apply inject_Z_nonneg; lia).
  destruct (Qeq_dec (inject_Z mo + m) 0) as [Hz | Hz].
  - rewrite (round64_zero _ Hz). exists 0.
    assert (m == 0)%Q as Hm0 by lra.
    assert (mo = 0) as Hmo'
      by (apply inject_Z_injective; change (inject_Z 0) with 0%Q; lra).
    destruct (Qfloor_ceiling_Z m 0 Hm0) as [-> ->].
    split; [lia |]. rewrite Hmo'. reflexivity.
  - assert (0 < inject_Z mo + m)%Q as Hpos by lra.
    assert (inject_Z (mo + Qfloor m) * 2 ^ 0
            <= round_magnitude (inject_Z mo + m))%Q as Hlo.
    { apply round_magnitude_ge_grid; try done; try lia.
      change (2 ^ 0)%Q with 1%Q. rewrite inject_Z_plus. lra. }
    assert (round_magnitude (inject_Z mo + m)
            <= inject_Z (mo + Qceiling m) * 2 ^ 0)%Q as Hhi.
    { apply round_magnitude_le_grid; try done; try lia.
      change (2 ^ 0)%Q with 1%Q. rewrite inject_Z_plus. lra. }
    change (2 ^ 0)%Q with 1%Q in Hlo, Hhi. rewrite Qmult_1_r in Hlo, Hhi.
    destruct (round64_pos _ Hpos) as [[_ Hbig] | [-> _]].
    + exfalso.
      assert (inject_Z (mo + Qceiling m) <= inject_Z (2 ^ 53))%Q as Hle
        by (rewrite <- Zle_Qle; lia).
      rewrite <- pow2_Z in Hle by lia.
      pose proof (pow2_lt 53 1024 ltac:(lia)). lra.
    + set (c := Qred (round_magnitude (inject_Z mo + m))).
      assert (inject_Z (mo + Qfloor m) <= c <= inject_Z (mo + Qceiling m))%Q
        as [Hlo' Hhi'] by (unfold c; rewrite Qred_correct; done).
      assert (0 <= c)%Q as Hc0.
      { eapply Qle_trans; [| exact Hlo']. apply inject_Z_nonneg. lia. }
      rewrite truncate_nonneg by done.
      apply Qfloor_resp_le in Hlo', Hhi'. rewrite Qfloor_Z in Hlo', Hhi'.
      exists (Qfloor c - mo). split; [lia |].
      by replace (mo + (Qfloor c - mo)) with (Qfloor c) by lia.
Qed.

(** A year later is twelve months later. *)
Lemma MakeDay_next_year (y m dt : Z) :
  0 <= m <= 11 -> MakeDay (y + 1) m dt = MakeDay y (m + 12) dt.
Proof.
  intros Hm. unfold MakeDay.
  assert ((m + 12) / 12 = 1) as -> by (Z.div_mod_to_equations; lia).
  assert ((m + 12) mod 12 = m) as -> by (Z.div_mod_to_equations; lia).
  by rewrite Z.div_small, Z.mod_small, Z.add_0_r by lia.
Qed.

Lemma increment_date_addMonths (f : string) (ppy : Z) (t : Date) :
  periodsPerYear_table !! f = Some (of_Z ppy) ->
  in_range t ->
  increment_date f t = addMonths t (12 / ppy).
Proof.
  intros H Hr. apply table_cases in H.
  destruct H as [[-> H] | [[-> H] | [[-> H] | [-> H]]]];
    apply of_Z_inj in H; subst ppy; try reflexivity.
  unfold increment_date. cbn [bool_decide decide_rel].
  repeat (case_bool_decide; [done |]).
  destruct t as [| d]; [reflexivity |].
  change (12 / 1) with 12. rewrite addMonths_valid by lia.
  cbn [in_range] in Hr. pose proof (YearFromTime_in_range d Hr) as Hy.
  unfold setFullYear, getFullYear, advance.
  rewrite add_of_Z_abs by lia. unfold of_Z. rewrite truncate_Z. f_equal.
  apply MakeDay_next_year, MonthFromTime_range.
Qed.

Lemma rows_dates (f : string) (pr emi : number) (n : nat) :
  forall b d,
    ScheduleRow.date <$> rows n f pr emi b d = dates_from n f d.
Proof.
  induction n as [| n IH]; intros b d; [reflexivity |].
  cbn [rows make_row dates_from]. rewrite fmap_cons. cbn [ScheduleRow.date].
  by rewrite IH.
Qed.

Lemma rows_numeric_fields (f1 f2 : string) (pr emi : number) (n : nat) :
  forall b d1 d2,
    numeric_fields <$> rows n f1 pr emi b d1
    = numeric_fields <$> rows n f2 pr emi b d2.
Proof.
  induction n as [| n IH]; intros b d1 d2; [reflexivity |].
  cbn [rows make_row]. rewrite !fmap_cons. f_equal. apply IH.
Qed.

Lemma dates_from_in_range (f : string) (n : nat) :
  forall d, in_range d -> Forall in_range (dates_from n f d).
Proof.
  induction n as [| n IH]; intros d Hd; [constructor |].
  cbn [dates_from]. constructor; [done |].
  apply IH, increment_date_in_range.
Qed.

Lemma dates_from_step (f : string) (n : nat) :
  forall d (i : nat) a b,
    dates_from n f d !! i = Some a ->
    dates_from n f d !! S i = Some b ->
    b = increment_date f a.
Proof.
  induction n as [| n IH]; intros d i a b Ha Hb; [done |].
  destruct i as [| i].
  - cbn in Ha. injection Ha as <-.
    destruct n as [| n]; [done |]. cbn in Hb. congruence.
  - exact (IH _ i a b Ha Hb).
Qed.

Lemma dates_from_head (f : string) (n : nat) (d d0 : Date) :
  dates_from n f d !! 0%nat = Some d0 -> d0 = d.
Proof. destruct n; [done |]. cbn. congruence. Qed.

Lemma dates_from_lookup_0 (f : string) (n : nat) (d : Date) :
  dates_from (S n) f d !! 0%nat = Some d.
Proof. reflexivity. Qed.

Lemma dates_from_lookup_S (f : string) (n i : nat) (d : Date) :
  dates_from (S n) f d !! S i = dates_from n f (increment_date f d) !! i.
Proof. reflexivity. Qed.

Lemma table_period_length (f : string) (ppy : Z) :
  periodsPerYear_table !! f = Some (of_Z ppy) -> 0 < 12 / ppy <= 12.
Proof.
  intros H. apply table_ppy in H.
  destruct H as [-> | [-> | [-> | ->]]]; by vm_compute.
Qed.

Lemma dates_from_invalid (f : string) (ppy : Z) (n : nat) :
  periodsPerYear_table !! f = Some (of_Z ppy) ->
  forall (i : nat) d, dates_from n f InvalidDate !! i = Some d -> d = InvalidDate.
Proof.
  intros Hf. induction n as [| n IH]; intros i d H; [done |].
  destruct i as [| i]; cbn in H; [congruence |].
  rewrite (increment_date_addMonths f ppy) in H; [| exact Hf | exact I].
  exact (IH i d H).
Qed.

(** From a start whose day of the month is at most 28, every valid date
    of the schedule is the start moved on by whole months. *)
Lemma dates_from_advance (f : string) (ppy s : Z) (n : nat) :
  periodsPerYear_table !! f = Some (of_Z ppy) ->
  DateFromTime s <= 28 ->
  forall (a : Z) (i : nat) (x : Z),
    dates_from n f (TimeClip (advance s a)) !! i = Some (DateOf x) ->
    x = advance s (a + Z.of_nat i * (12 / ppy)).
Proof.
  intros Hf H28. pose proof (table_period_length f ppy Hf) as Hk.
  induction n as [| n IH]; intros a i x H; [by destruct i |].
  destruct i as [| i].
  - rewrite dates_from_lookup_0 in H.
    injection H as H. apply TimeClip_valid in H.
    subst x. f_equal. lia.
  - rewrite dates_from_lookup_S in H.
    rewrite (increment_date_addMonths f ppy) in H;
      [| exact Hf | apply TimeClip_in_range].
    destruct (TimeClip_cases (advance s a)) as [E | E]; rewrite E in H.
    + rewrite addMonths_valid, advance_advance in H by (done || lia).
      apply IH in H. subst x. f_equal. lia.
    + rewrite addMonths_invalid in H.
      apply (dates_from_invalid f ppy) in H; [discriminate H | exact Hf].
Qed.

(** Consecutive dates of a schedule. *)
Lemma dates_from_addMonths (f : string) (ppy : Z) (n : nat) (d : Date) :
  periodsPerYear_table !! f = Some (of_Z ppy) ->
  in_range d ->
  forall (i : nat) a b,
    dates_from n f d !! i = Some a ->
    dates_from n f d !! S i = Some b ->
    b = addMonths a (12 / ppy).
Proof.
  intros Hf Hd i a b Ha Hb.
  rewrite <- (increment_date_addMonths _ _ _ Hf).
  - by eapply dates_from_step.
  - pose proof (dates_from_in_range f n d Hd) as Hall.
    rewrite Forall_lookup in Hall. by eapply Hall.
Qed.

Lemma first_date_in_range (date : Date) (m : Q) : in_range (first_date date m).
Proof. apply setMonth_in_range. Qed.

Lemma jan_31_loan_validated :
  Validated jan_31_loan (civil 2024 0 31) 1000 1 12 0 12.
Proof. validated. Qed.

(** C3, as amended: for validated input the first date is the start
    date after [setMonth(getMonth() + moratorium)]; for a valid start
    and a moratorium of at most [2 ^ 52] months that is the start moved
    on by a whole number of months, the moratorium rounded down or up
    (the moratorium itself when it is a whole number); each later date
    is the one before it moved on by 12 / periodsPerYear months (1, 3,
    6 or 12) in the same way; a valid date is preceded by a valid,
    strictly earlier date; and when the earlier date falls on day 28 of
    its month or before, the later date has the same day of the month
    in the month that many months on.  A day of the month beyond the
    length of the target month runs on into the month after it. *)
Theorem schedule_dates_advance_by_period
    (st : State.t) (date : Date) (p t r m : Q) (ppy : Z) (fuel : nat)
    (V : Validated st date p t r m ppy)
    (Hfuel : (iterations (totalPeriods_of t ppy) < fuel)%nat) :
  exists st',
    calculateSchedule fuel st = Some st' /\
    let ds := ScheduleRow.date <$> State.schedule st' in
    (forall d0, ds !! 0%nat = Some d0 ->
       d0 = setMonth date (add (getMonth date) (Num m)) /\
       forall s, date = DateOf s -> (m <= inject_Z (2 ^ 52))%Q ->
         exists k, Qfloor m <= k <= Qceiling m /\
                   d0 = TimeClip (advance s k)) /\
    (forall (i : nat) a b,
       ds !! i = Some a -> ds !! S i = Some b ->
       b = addMonths a (12 / ppy)) /\
    (forall (i : nat) a y,
       ds !! i = Some a -> ds !! S i = Some (DateOf y) ->
       exists x, a = DateOf x /\ x < y) /\
    (forall (i : nat) x y,
       ds !! i = Some (DateOf x) -> ds !! S i = Some (DateOf y) ->
       DateFromTime x <= 28 ->
       YearFromTime y = YearFromTime x + (MonthFromTime x + 12 / ppy) / 12 /\
       MonthFromTime y = (MonthFromTime x + 12 / ppy) mod 12 /\
       DateFromTime y = DateFromTime x).
Proof.
  eexists. split; [by apply validated_calculateSchedule |].
  cbn [State.schedule]. unfold schedule_of. rewrite rows_dates. cbn zeta.
  pose proof (v_frequency _ _ _ _ _ _ _ V) as Hf.
  pose proof (table_period_length _ _ Hf) as Hk.
  pose proof (dates_from_addMonths _ _
                (iterations (totalPeriods_of t ppy)) _ Hf
                (first_date_in_range date m)) as Hstep.
  split; [| split; [exact Hstep | split]].
  - intros d0 H0. apply dates_from_head in H0. subst d0.
    split; [reflexivity |]. intros s -> Hmax.
    apply first_date_valid; [by destruct V | done].
  - intros i a y Ha Hy. pose proof (Hstep i a _ Ha Hy) as H.
    destruct a as [| x]; [done |]. exists x. split; [done |].
    rewrite addMonths_valid in H by lia. symmetry in H.
    apply TimeClip_valid in H. subst y. apply advance_lt. lia.
  - intros i x y Hx Hy H28. pose proof (Hstep i _ _ Hx Hy) as H.
    rewrite addMonths_valid in H by lia. symmetry in H.
    apply TimeClip_valid in H. subst y. by apply advance_fields.
Qed.

Lemma schedule_dates_advance_by_period_witness :
  exists st',
    calculateSchedule 13 jan_31_loan = Some st' /\
    let ds := ScheduleRow.date <$> State.schedule st' in
    (forall d0, ds !! 0%nat = Some d0 ->
       d0 = setMonth (civil 2024 0 31)
              (add (getMonth (civil 2024 0 31)) (Num 0)) /\
       forall s, civil 2024 0 31 = DateOf s -> (0 <= inject_Z (2 ^ 52))%Q ->
         exists k, Qfloor 0 <= k <= Qceiling 0 /\
                   d0 = TimeClip (advance s k)) /\
    (forall (i : nat) a b,
       ds !! i = Some a -> ds !! S i = Some b ->
       b = addMonths a (12 / 12)) /\
    (forall (i : nat) a y,
       ds !! i = Some a -> ds !! S i = Some (DateOf y) ->
       exists x, a = DateOf x /\ x < y) /\
    (forall (i : nat) x y,
       ds !! i = Some (DateOf x) -> ds !! S i = Some (DateOf y) ->
       DateFromTime x <= 28 ->
       YearFromTime y = YearFromTime x + (MonthFromTime x + 12 / 12) / 12 /\
       MonthFromTime y = (MonthFromTime x + 12 / 12) mod 12 /\
       DateFromTime y = DateFromTime x).
Proof.
  apply (schedule_dates_advance_by_period jan_31_loan (civil 2024 0 31)
           1000 1 12 0 12 13).
  - exact jan_31_loan_validated.
  - vm_compute. lia.
Defined.

(** C3 as stated fails for monthly periods from 31 January 2024: the
    first date is 31 January and the second is 2 March, so the month
    added to 31 January has run over into a later month, and no period
    falls in February. *)
Lemma jan_31_advances_to_march :
  Validated jan_31_loan (civil 2024 0 31) 1000 1 12 0 12 /\
  exists st',
    calculateSchedule 13 jan_31_loan = Some st' /\
    (ScheduleRow.date <$> State.schedule st') !! 0%nat
      = Some (civil 2024 0 31) /\
    (ScheduleRow.date <$> State.schedule st') !! 1%nat
      = Some (civil 2024 2 2) /\
    getMonth (civil 2024 2 2) = of_Z 2 /\
    Forall (fun d => getMonth d <> of_Z 1)
      (ScheduleRow.date <$> State.schedule st').
Proof.
  split; [exact jan_31_loan_validated |].
  eexists. split; [vm_compute; reflexivity |].
  split; [reflexivity |]. split; [reflexivity |]. split; [reflexivity |].
  repeat (apply List.Forall_cons; [by vm_compute |]). apply List.Forall_nil.
Qed.

(** A moratorium just below one month from 1 February 2024: the sum
    [1 + 0.9999999999999999] rounds to 2, and the first date is 1
    March, one whole month on. *)
Lemma fractional_moratorium_rounds_up :
  Number "0.9999999999999999" = Num (9007199254740991 # 2 ^ 53) /\
  add (getMonth (civil 2024 1 1)) (Number "0.9999999999999999") = of_Z 2 /\
  first_date (civil 2024 1 1) (9007199254740991 # 2 ^ 53) = civil 2024 2 1.
Proof. by vm_compute. Qed.

(** ** The moratorium *)

Lemma moratorium_0_loan_validated :
  Validated moratorium_0_loan jan_1_2024 1000 1 12 0 12.
Proof. validated. Qed.

Lemma moratorium_3_loan_validated :
  Validated moratorium_3_loan jan_1_2024 1000 1 12 3 12.
Proof. validated. Qed.

Lemma moratorium_1_loan_validated :
  Validated moratorium_1_loan (civil 2023 0 31) 1000 1 12 1 12.
Proof. validated. Qed.

Lemma moratorium_2_loan_validated :
  Validated moratorium_2_loan (civil 2023 0 31) 1000 1 12 2 12.
Proof. validated. Qed.

(** C6, as amended: two validated inputs that differ only in the
    moratorium yield schedules with the same payment, interest,
    principal part and balance in every period; the first date of each
    is the start date after [setMonth(getMonth() + moratorium)]; and
    when the start date is valid and falls on day 28 of its month or
    before and both moratoria are at most [2 ^ 52] months, each valid
    date of the second schedule is the date of the same period of the
    first moved on by [k2 - k1] months, where [k1] and [k2] are the two
    moratoria, each rounded down or up to a whole number (the
    moratorium itself when it is a whole number).  From 1 January 2024
    a moratorium of 3 gives 1 April 2024 as first date. *)
Theorem moratorium_changes_dates_only
    (st1 st2 : State.t) (date : Date) (p t r m1 m2 : Q) (ppy : Z)
    (fuel : nat)
    (V1 : Validated st1 date p t r m1 ppy)
    (V2 : Validated st2 date p t r m2 ppy)
    (Hfreq : FormData.frequency (State.formData st1)
             = FormData.frequency (State.formData st2))
    (Hfuel : (iterations (totalPeriods_of t ppy) < fuel)%nat) :
  exists st1' st2',
    calculateSchedule fuel st1 = Some st1' /\
    calculateSchedule fuel st2 = Some st2' /\
    numeric_fields <$> State.schedule st1'
      = numeric_fields <$> State.schedule st2' /\
    (forall d0,
       (ScheduleRow.date <$> State.schedule st1') !! 0%nat = Some d0 ->
       d0 = setMonth date (add (getMonth date) (Num m1))) /\
    (forall d0,
       (ScheduleRow.date <$> State.schedule st2') !! 0%nat = Some d0 ->
       d0 = setMonth date (add (getMonth date) (Num m2))) /\
    (forall s, date = DateOf s -> DateFromTime s <= 28 ->
       (m1 <= inject_Z (2 ^ 52))%Q -> (m2 <= inject_Z (2 ^ 52))%Q ->
       exists k1 k2,
         Qfloor m1 <= k1 <= Qceiling m1 /\
         Qfloor m2 <= k2 <= Qceiling m2 /\
         forall (i : nat) x y,
           (ScheduleRow.date <$> State.schedule st1') !! i
             = Some (DateOf x) ->
           (ScheduleRow.date <$> State.schedule st2') !! i
             = Some (DateOf y) ->
           y = advance x (k2 - k1)) /\
    setMonth (civil 2024 0 1) (add (getMonth (civil 2024 0 1)) (of_Z 3))
      = civil 2024 3 1.
Proof.
  exists (State.mk (Some date) (schedule_of st1 date p t r m1 ppy) false ∅
            (State.formData st1)),
         (State.mk (Some date) (schedule_of st2 date p t r m2 ppy) false ∅
            (State.formData st2)).
  split; [by apply validated_calculateSchedule |].
  split; [by apply validated_calculateSchedule |].
  cbn [State.schedule]. unfold schedule_of. rewrite !rows_dates.
  split; [apply rows_numeric_fields |].
  split; [intros d0 H0; by apply dates_from_head in H0 |].
  split; [intros d0 H0; by apply dates_from_head in H0 |].
  split; [| by vm_compute].
  intros s -> H28 Hmax1 Hmax2.
  pose proof (v_frequency _ _ _ _ _ _ _ V1) as Hf1.
  pose proof (v_frequency _ _ _ _ _ _ _ V2) as Hf2.
  destruct (first_date_valid s m1) as (k1 & Hk1 & E1);
    [eapply v_moratorium_nonneg; eassumption | done |].
  destruct (first_date_valid s m2) as (k2 & Hk2 & E2);
    [eapply v_moratorium_nonneg; eassumption | done |].
  exists k1, k2. split; [done |]. split; [done |].
  intros i x y Hx Hy. rewrite E1 in Hx. rewrite E2 in Hy.
  apply (dates_from_advance _ ppy) in Hx; [| done | done].
  apply (dates_from_advance _ ppy) in Hy; [| done | done].
  subst x y. rewrite advance_advance by done. f_equal. lia.
Qed.

Lemma moratorium_changes_dates_only_witness :
  exists st1' st2',
    calculateSchedule 13 moratorium_0_loan = Some st1' /\
    calculateSchedule 13 moratorium_3_loan = Some st2' /\
    numeric_fields <$> State.schedule st1'
      = numeric_fields <$> State.schedule st2' /\
    (forall d0,
       (ScheduleRow.date <$> State.schedule st1') !! 0%nat = Some d0 ->
       d0 = setMonth jan_1_2024 (add (getMonth jan_1_2024) (Num 0))) /\
    (forall d0,
       (ScheduleRow.date <$> State.schedule st2') !! 0%nat = Some d0 ->
       d0 = setMonth jan_1_2024 (add (getMonth jan_1_2024) (Num 3))) /\
    (forall s, jan_1_2024 = DateOf s -> DateFromTime s <= 28 ->
       (0 <= inject_Z (2 ^ 52))%Q -> (3 <= inject_Z (2 ^ 52))%Q ->
       exists k1 k2,
         Qfloor 0 <= k1 <= Qceiling 0 /\
         Qfloor 3 <= k2 <= Qceiling 3 /\
         forall (i : nat) x y,
           (ScheduleRow.date <$> State.schedule st1') !! i
             = Some (DateOf x) ->
           (ScheduleRow.date <$> State.schedule st2') !! i
             = Some (DateOf y) ->
           y = advance x (k2 - k1)) /\
    setMonth (civil 2024 0 1) (add (getMonth (civil 2024 0 1)) (of_Z 3))
      = civil 2024 3 1.
Proof.
  apply (moratorium_changes_dates_only moratorium_0_loan moratorium_3_loan
           jan_1_2024 1000 1 12 0 3 12 13).
  - exact moratorium_0_loan_validated.
  - exact moratorium_3_loan_validated.
  - reflexivity.
  - vm_compute. lia.
Defined.

(** C6 as stated fails from 31 January 2023: with a moratorium of one
    month the first date is 3 March, with two months it is 31 March,
    and 3 March moved on by the difference of one month is 3 April.  The
    numeric fields of the two schedules agree. *)
Lemma end_of_month_moratorium_shift :
  Validated moratorium_1_loan (civil 2023 0 31) 1000 1 12 1 12 /\
  Validated moratorium_2_loan (civil 2023 0 31) 1000 1 12 2 12 /\
  exists st1' st2',
    calculateSchedule 13 moratorium_1_loan = Some st1' /\
    calculateSchedule 13 moratorium_2_loan = Some st2' /\
    numeric_fields <$> State.schedule st1'
      = numeric_fields <$> State.schedule st2' /\
    (ScheduleRow.date <$> State.schedule st1') !! 0%nat
      = Some (civil 2023 2 3) /\
    (ScheduleRow.date <$> State.schedule st2') !! 0%nat
      = Some (civil 2023 2 31) /\
    addMonths (civil 2023 2 3) (2 - 1) = civil 2023 3 3 /\
    civil 2023 3 3 <> civil 2023 2 31.
Proof.
  split; [exact moratorium_1_loan_validated |].
  split; [exact moratorium_2_loan_validated |].
  eexists _, _. split; [vm_compute; reflexivity |].
  split; [vm_compute; reflexivity |].
  split; [reflexivity |]. split; [reflexivity |]. split; [reflexivity |].
  split; [reflexivity | by vm_compute].
Qed.

(** ** Period counts that round, overflow or exceed an array *)

(** Twelve times 0.33333333333333337 is above 4, but the product rounds
    to 4 and the schedule has four periods. *)
Lemma rounded_period_count :
  exists t,
    Number "0.33333333333333337" = Num t /\
    (4 < t * 12)%Q /\
    mul (Num t) (of_Z 12) = of_Z 4 /\
    exists st',
      calculateSchedule 5 third_year_loan = Some st' /\
      length (State.schedule st') = 4%nat.
Proof.
  eexists. split; [vm_compute; reflexivity |].
  split; [by vm_compute |]. split; [vm_compute; reflexivity |].
  eexists. split; [vm_compute; reflexivity |]. reflexivity.
Qed.

(** X15: when the form passes the validator, a date is picked, the
    frequency is one of the four listed ones and the period count
    [tenure * periodsPerYear], as the code computes it, is infinite or
    above [max_periods], the call does not return, whatever the bound
    on the number of iterations: the loop condition stays true until
    [push] throws on the full array. *)
Theorem oversized_period_count_never_returns
    (fuel : nat) (st : State.t) (date : Date) (t : Q) (ppy : Z)
    (Hdate : State.date st = Some date)
    (Hvalid : newErrors (State.formData st) = ∅)
    (Htenure : Number (FormData.tenure (State.formData st)) = Num t)
    (Hfreq : periodsPerYear_table !! FormData.frequency (State.formData st)
             = Some (of_Z ppy))
    (Hbig : le (mul (Num t) (of_Z ppy)) (of_Z max_periods) = false) :
  calculateSchedule fuel st = None.
Proof.
  unfold calculateSchedule, validateForm.
  rewrite Hvalid, map_size_empty. cbn [Nat.eqb negb].
  cbn [State.formData State.setLoading State.setErrors State.date].
  rewrite Hdate, Htenure. unfold lookup_periodsPerYear. rewrite Hfreq.
  pose proof (table_ppy _ _ Hfreq) as Hppy.
  assert (not_value (NumberValue (of_Z ppy)) = false) as ->
    by (destruct Hppy as [-> | [-> | [-> | ->]]]; reflexivity).
  cbn [ToNumber].
  destruct (mul (Num t) (of_Z ppy)) as [| | | T] eqn:HT.
  - unfold mul, of_Z in HT. by apply round64_not_NaN in HT.
  - rewrite schedule_loop_diverges; [done | by vm_compute].
  - discriminate Hbig.
  - apply Qle_bool_false in Hbig.
    match goal with
    | |- context [schedule_loop fuel ?f (Num T) ?pr ?emi _ ?b ?d []] =>
        pose proof (schedule_loop_array_full f T pr emi fuel Hbig b d []
                      ltac:(by vm_compute)) as H
    end.
    cbn [length] in H. change (Z.of_nat 0) with 0 in H. by rewrite H.
Qed.

Lemma oversized_period_count_never_returns_witness :
  mul (Number "1e308") (of_Z 12) = PInf /\
  calculateSchedule 1000 huge_tenure_loan = None.
Proof.
  split; [by vm_compute |].
  eapply (oversized_period_count_never_returns 1000 huge_tenure_loan
            jan_1_2024 _ 12).
  - reflexivity.
  - by vm_compute.
  - vm_compute. reflexivity.
  - by vm_compute.
  - vm_compute. reflexivity.
Defined.

(** ** Further checks of the model *)

(** A tenure of [Infinity] passes the validator and the loop condition
    stays true for ever. *)
Lemma infinite_tenure_never_returns (fuel : nat) :
  (validateForm (State.formData infinite_tenure_loan) infinite_tenure_loan).2
  = true /\
  calculateSchedule fuel infinite_tenure_loan = None.
Proof.
  split; [by vm_compute |].
  unfold calculateSchedule.
  replace (validateForm (State.formData infinite_tenure_loan)
             infinite_tenure_loan)
    with (infinite_tenure_loan, true) by (by vm_compute).
  cbn [negb State.setLoading State.formData State.date infinite_tenure_loan
       mkState FormData.frequency FormData.tenure].
  replace (lookup_periodsPerYear "monthly") with (NumberValue (of_Z 12))
    by (by vm_compute).
  cbn [not_value falsy of_Z ToNumber].
  replace (is_zero (inject_Z 12)) with false by reflexivity.
  replace (mul (Number "Infinity") (Num (inject_Z 12))) with PInf
    by (by vm_compute).
  rewrite (schedule_loop_diverges _ _ _ fuel 0); [done | by vm_compute].
Qed.

(** Binary64 arithmetic, [Math.pow] on whole and fractional exponents,
    and [Number] on strings. *)
Lemma host_function_examples :
  Number "0.1" = Num (3602879701896397 # 2 ^ 55) /\
  add (Number "0.1") (Number "0.2") = Number "0.30000000000000004" /\
  strict_eq (add (Number "0.1") (Number "0.2")) (Number "0.3") = false /\
  div (div (of_Z 12) (of_Z 100)) (of_Z 12) = Number "0.01" /\
  sub (Math_pow (of_Z 2) (of_Z 60)) (of_Z 1) = Math_pow (of_Z 2) (of_Z 60) /\
  Math_pow (Number "1.01") (of_Z 2) = Number "1.0201" /\
  Math_pow (Number "1.5625") (Number "0.5") = Number "1.25" /\
  Math_pow (of_Z 2) (Number "0.5") = Number "1.4142135623730951" /\
  Math_pow (of_Z 4) (Number "-1.5") = Number "0.125" /\
  Math_pow (of_Z 1) PInf = NaN /\
  Math_pow NaN (of_Z 0) = of_Z 1 /\
  Math_pow (of_Z (-8)) (Number "0.5") = NaN /\
  Number " 1.5e2 " = of_Z 150 /\
  Number "-0.25" = Num (-1 # 4) /\
  Number "0x1F" = of_Z 31 /\
  Number EmptyString = of_Z 0 /\
  Number "12px" = NaN /\
  Number "-Infinity" = NInf /\
  Number "1e309" = PInf /\
  Number "1e-400" = of_Z 0 /\
  Number "1.0000000000000000001" = of_Z 1.
Proof. by vm_compute. Qed.

(** A schedule cannot be computed before a date is picked: on the
    initial state the effect leaves the state as it is. *)
Lemma onChange_initialState (fuel : nat) :
  onChange fuel initialState = Some initialState.
Proof. reflexivity. Qed.

(** The reference case of the specification: 100000 over one year,
    monthly, at 12% from 1 January 2024.  The periodic rate is the
    binary64 number nearest to 0.01, the payment lies between 8884.87
    and 8884.88, the first period has interest 1000, a principal part
    between 7884.87 and 7884.88 and a balance between 92115.12 and
    92115.13, and the dates are the first of each month from January to
    December 2024. *)
Lemma reference_case :
  periodicRate_of 12 12 = Number "0.01" /\
  exists st' e pp b rest,
    calculateSchedule 13 reference_loan = Some st' /\
    State.schedule st'
      = ScheduleRow.mk jan_1_2024 (Num e) (of_Z 1000) (Num pp) (Num b)
          :: rest /\
    (888487 # 100 < e < 888488 # 100)%Q /\
    (788487 # 100 < pp < 788488 # 100)%Q /\
    (9211512 # 100 < b < 9211513 # 100)%Q /\
    ScheduleRow.date <$> State.schedule st'
      = (fun mo => civil 2024 mo 1) <$> [0; 1; 2; 3; 4; 5; 6; 7; 8; 9; 10; 11].
Proof.
  split; [vm_compute; reflexivity |].
  eexists _, _, _, _, _. split; [vm_compute; reflexivity |].
  split; [reflexivity |]. by vm_compute.
Qed.
(** ** [calculateSchedule] as a state update *)

(** X1: whatever the state, a call that returns leaves the picked date
    and the form data as they were and stores exactly the validator's
    error object; if that object is empty the loading flag is false on
    return, and if it is not, the loading flag and the schedule of the
    earlier computation are kept. *)
Theorem calculateSchedule_frame (fuel : nat) (st st' : State.t)
    (H : calculateSchedule fuel st = Some st') :
  State.date st' = State.date st /\
  State.formData st' = State.formData st /\
  State.errors st' = newErrors (State.formData st) /\
  (newErrors (State.formData st) = ∅ -> State.loading st' = false) /\
  (newErrors (State.formData st) <> ∅ ->
   State.loading st' = State.loading st /\
   State.schedule st' = State.schedule st).
Proof.
  unfold calculateSchedule, validateForm in H.
  destruct (Nat.eqb (size (newErrors (State.formData st))) 0) eqn:Hok;
    cbn [negb] in H.
  - apply size_zero_empty in Hok.
    cbn [State.formData State.setLoading State.setErrors State.date] in H.
    assert (State.date st' = State.date st /\
            State.formData st' = State.formData st /\
            State.errors st' = newErrors (State.formData st) /\
            State.loading st' = false) as (? & ? & ? & ?).
    { rewrite Hok.
      destruct (State.date st) as [d |] eqn:Hd;
        [| injection H as <-; by rewrite <- Hd].
      destruct (not_value _); [injection H as <-; by rewrite <- Hd |].
      destruct (schedule_loop _ _ _ _ _ _ _ _ _); [| done].
      injection H as <-. by rewrite <- Hd. }
    repeat split; try done.
  - injection H as <-. cbn. repeat split; try done.
    intros Hempty. apply size_zero_empty in Hempty. congruence.
Qed.

Lemma calculateSchedule_frame_witness :
  exists st',
    calculateSchedule 1 zero_principal_loan = Some st' /\
    State.date st' = State.date zero_principal_loan /\
    State.formData st' = State.formData zero_principal_loan /\
    State.errors st' = newErrors (State.formData zero_principal_loan) /\
    (newErrors (State.formData zero_principal_loan) = ∅ ->
     State.loading st' = false) /\
    (newErrors (State.formData zero_principal_loan) <> ∅ ->
     State.loading st' = State.loading zero_principal_loan /\
     State.schedule st' = State.schedule zero_principal_loan).
Proof.
  eexists. split; [vm_compute; reflexivity |].
  apply (calculateSchedule_frame 1 zero_principal_loan).
  vm_compute. reflexivity.
Defined.

(** X2: computing again from the state a call returned changes
    nothing: a schedule is replaced by the recomputed one, never
    extended. *)
Theorem calculateSchedule_idempotent (fuel : nat) (st st' : State.t)
    (H : calculateSchedule fuel st = Some st') :
  calculateSchedule fuel st' = Some st'.
Proof.
  unfold calculateSchedule, validateForm in *.
  destruct (Nat.eqb (size (newErrors (State.formData st))) 0) eqn:Hok;
    cbn [negb] in H.
  - cbn [State.formData State.setLoading State.setErrors State.date] in H.
    destruct (State.date st) as [d |] eqn:Hd.
    + destruct (not_value _) eqn:Hnv.
      * injection H as <-.
        cbn [State.formData State.setLoading State.setErrors State.date].
        rewrite Hok. cbn [negb]. by rewrite Hd, Hnv.
      * destruct (schedule_loop _ _ _ _ _ _ _ _ _) as [rs |] eqn:Hloop;
          [| done].
        injection H as <-.
        cbn [State.formData State.setLoading State.setErrors
             State.setSchedule State.date].
        rewrite Hok. cbn [negb]. by rewrite Hd, Hnv, Hloop.
    + injection H as <-.
      cbn [State.formData State.setLoading State.setErrors State.date].
      rewrite Hok. cbn [negb]. by rewrite Hd.
  - injection H as <-. cbn [State.formData State.setErrors].
    by rewrite Hok.
Qed.

Lemma calculateSchedule_idempotent_witness :
  exists st',
    calculateSchedule 5 quarterly_loan = Some st' /\
    calculateSchedule 5 st' = Some st'.
Proof.
  eexists. split; [vm_compute; reflexivity |].
  apply (calculateSchedule_idempotent 5 quarterly_loan).
  vm_compute. reflexivity.
Defined.

(** ** Tenures that are not finite numbers *)

Lemma mul_PInf_ppy (f : string) (ppy : Z) :
  periodsPerYear_table !! f = Some (of_Z ppy) ->
  mul PInf (of_Z ppy) = PInf /\ not_value (NumberValue (of_Z ppy)) = false.
Proof.
  intros H. apply table_ppy in H.
  by destruct H as [-> | [-> | [-> | ->]]].
Qed.

(** X3: when the form passes the validator, a date is picked, the
    frequency is one of the four listed ones and the tenure converts to
    [Infinity], the loop condition never becomes false: the call does
    not return, whatever the bound on the number of iterations. *)
Theorem infinite_tenure_diverges (fuel : nat) (st : State.t) (date : Date)
    (ppy : Z)
    (Hdate : State.date st = Some date)
    (Hvalid : newErrors (State.formData st) = ∅)
    (Htenure : Number (FormData.tenure (State.formData st)) = PInf)
    (Hfreq : periodsPerYear_table !! FormData.frequency (State.formData st)
             = Some (of_Z ppy)) :
  calculateSchedule fuel st = None.
Proof.
  unfold calculateSchedule, validateForm.
  rewrite Hvalid, map_size_empty. cbn [Nat.eqb negb].
  cbn [State.formData State.setLoading State.setErrors State.date].
  rewrite Hdate, Htenure. unfold lookup_periodsPerYear. rewrite Hfreq.
  destruct (mul_PInf_ppy _ _ Hfreq) as [Hmul ->].
  cbn [ToNumber]. rewrite Hmul.
  rewrite (schedule_loop_diverges _ _ _ fuel 0); [done | by vm_compute].
Qed.

Lemma infinite_tenure_diverges_witness :
  calculateSchedule 1000 infinite_tenure_loan = None.
Proof.
  apply (infinite_tenure_diverges 1000 infinite_tenure_loan jan_1_2024 12);
    by vm_compute.
Defined.

Lemma mul_NaN_l (a : number) : mul NaN a = NaN.
Proof. reflexivity. Qed.

(** X4: when the form passes the validator, a date is picked, the
    frequency is one of the four listed ones and the tenure converts to
    NaN (which the validator lets through), the call stores an empty
    schedule in place of the earlier one and reports no error. *)
Theorem nan_tenure_clears_schedule (fuel : nat) (st : State.t) (date : Date)
    (ppy : Z)
    (Hdate : State.date st = Some date)
    (Hvalid : newErrors (State.formData st) = ∅)
    (Htenure : Number (FormData.tenure (State.formData st)) = NaN)
    (Hfreq : periodsPerYear_table !! FormData.frequency (State.formData st)
             = Some (of_Z ppy)) :
  calculateSchedule (S fuel) st
  = Some (State.mk (Some date) [] false ∅ (State.formData st)).
Proof.
  unfold calculateSchedule, validateForm.
  rewrite Hvalid, map_size_empty. cbn [Nat.eqb negb].
  cbn [State.formData State.setLoading State.setErrors State.date].
  rewrite Hdate, Htenure. unfold lookup_periodsPerYear. rewrite Hfreq.
  destruct (mul_PInf_ppy _ _ Hfreq) as [_ ->].
  rewrite mul_NaN_l. cbn [schedule_loop]. rewrite lt_NaN_r.
  unfold State.setLoading, State.setSchedule, State.setErrors.
  cbn [State.date State.schedule State.loading State.errors State.formData].
  by rewrite Hdate.
Qed.

Lemma nan_tenure_clears_schedule_witness :
  State.schedule nan_tenure_loan <> [] /\
  calculateSchedule 1 nan_tenure_loan
  = Some (State.mk (Some jan_1_2024) [] false ∅
            (State.formData nan_tenure_loan)).
Proof.
  split; [done |].
  apply (nan_tenure_clears_schedule 0 nan_tenure_loan jan_1_2024 12);
    by vm_compute.
Defined.

(** ** The effect *)

(** X5: the effect computes nothing while a field of the form is the
    empty string: the state stays as it is, so the validator is not run
    and the earlier schedule and errors stay on display.  In particular
    a cleared principal, which the validator would reject since [Number]
    of the empty string is 0, is never reported through the effect. *)
Theorem onChange_empty_field (fuel : nat) (st : State.t)
    (H : EmptyString ∈ FormData.values (State.formData st)) :
  onChange fuel st = Some st /\
  (FormData.principal (State.formData st) = EmptyString ->
   is_Some (newErrors (State.formData st) !! "principal")).
Proof.
  split.
  - unfold onChange. destruct (State.date st); [| done].
    destruct (forallb _ _) eqn:Hall; [| done].
    rewrite forallb_forall in Hall.
    apply list_elem_of_In, Hall in H. done.
  - intros Hp. apply newErrors_principal. by rewrite Hp.
Qed.

Lemma onChange_empty_field_witness :
  onChange 13 cleared_principal_loan = Some cleared_principal_loan /\
  (FormData.principal (State.formData cleared_principal_loan) = EmptyString ->
   is_Some (newErrors (State.formData cleared_principal_loan) !! "principal")).
Proof.
  apply (onChange_empty_field 13 cleared_principal_loan).
  apply list_elem_of_here.
Defined.

(** With a date picked and no field empty the effect is the call of
    [calculateSchedule]. *)
Lemma onChange_runs_calculateSchedule (fuel : nat) (st : State.t)
    (date : Date)
    (Hdate : State.date st = Some date)
    (H : EmptyString ∉ FormData.values (State.formData st)) :
  onChange fuel st = calculateSchedule fuel st.
Proof.
  unfold onChange. rewrite Hdate.
  destruct (forallb _ _) eqn:Hall; [done |].
  apply not_true_iff_false in Hall. exfalso. apply Hall.
  apply forallb_forall. intros x Hx.
  apply negb_true_iff, String.eqb_neq. intros ->.
  by apply H, list_elem_of_In.
Qed.

(** ** Due dates in closed form *)

Lemma quarterly_loan_validated :
  Validated quarterly_loan jan_1_2024 1000 1 8 0 4.
Proof. validated. Qed.

Lemma advance_0 (d : Z) : advance d 0 = d.
Proof. unfold advance. rewrite Z.add_0_r. apply MakeDay_fields. Qed.

(** X9: for validated input the schedule has at least one period, and
    when the start date is valid and falls on day 28 of its month or
    before and the moratorium is at most [2 ^ 52] months, every valid
    date of the schedule is given in closed form: period [i] (counted
    from 0) is due [k0] months plus [i] period lengths after the start,
    on the same day of the month, where [k0] is the moratorium rounded
    down or up to a whole number (the moratorium itself when it is a
    whole number). *)
Theorem due_dates_closed_form
    (st : State.t) (s : Z) (p t r m : Q) (ppy : Z) (fuel : nat)
    (V : Validated st (DateOf s) p t r m ppy)
    (H28 : DateFromTime s <= 28)
    (Hmax : (m <= inject_Z (2 ^ 52))%Q)
    (Hfuel : (iterations (totalPeriods_of t ppy) < fuel)%nat) :
  exists st' k0,
    calculateSchedule fuel st = Some st' /\
    State.schedule st' <> [] /\
    Qfloor m <= k0 <= Qceiling m /\
    (forall M : Z, (m == inject_Z M)%Q -> k0 = M) /\
    forall (i : nat) x,
      (ScheduleRow.date <$> State.schedule st') !! i = Some (DateOf x) ->
      let k := k0 + Z.of_nat i * (12 / ppy) in
      x = advance s k /\
      YearFromTime x = YearFromTime s + (MonthFromTime s + k) / 12 /\
      MonthFromTime x = (MonthFromTime s + k) mod 12 /\
      DateFromTime x = DateFromTime s /\
      (k = 0 -> x = s).
Proof.
  pose proof (v_frequency _ _ _ _ _ _ _ V) as Hf.
  pose proof (v_moratorium_nonneg _ _ _ _ _ _ _ V) as Hm.
  destruct (first_date_valid s m Hm Hmax) as (k0 & Hk0 & E).
  eexists _, k0. split; [by apply validated_calculateSchedule |].
  cbn [State.schedule]. unfold schedule_of.
  split; [| split; [exact Hk0 | split]].
  - pose proof (validated_iterations_pos _ _ _ _ _ _ _ V) as Hpos.
    destruct (iterations (totalPeriods_of t ppy)); [lia | done].
  - intros M HM. destruct (Qfloor_ceiling_Z m M HM) as [HfM HcM]. lia.
  - rewrite rows_dates, E.
    intros i x Hx. cbn zeta.
    set (k := k0 + Z.of_nat i * (12 / ppy)).
    apply (dates_from_advance _ ppy) in Hx; [| done | done].
    subst x. fold k.
    destruct (advance_fields s k H28) as (Hy & Hmo & Hd).
    repeat split; try done. intros ->. apply advance_0.
Qed.

Lemma due_dates_closed_form_witness :
  exists st' k0,
    calculateSchedule 5 quarterly_loan = Some st' /\
    State.schedule st' <> [] /\
    Qfloor 0 <= k0 <= Qceiling 0 /\
    (forall M : Z, (0 == inject_Z M)%Q -> k0 = M) /\
    forall (i : nat) x,
      (ScheduleRow.date <$> State.schedule st') !! i = Some (DateOf x) ->
      let k := k0 + Z.of_nat i * (12 / 4) in
      x = advance 19723 k /\
      YearFromTime x = YearFromTime 19723 + (MonthFromTime 19723 + k) / 12 /\
      MonthFromTime x = (MonthFromTime 19723 + k) mod 12 /\
      DateFromTime x = DateFromTime 19723 /\
      (k = 0 -> x = 19723).
Proof.
  apply (due_dates_closed_form quarterly_loan 19723 1000 1 8 0 4 5).
  - exact quarterly_loan_validated.
  - by vm_compute.
  - by vm_compute.
  - vm_compute. lia.
Defined.

(** X10: two validated inputs with the same start date, tenure,
    frequency and moratorium have the same due dates, whatever their
    principals and rates. *)
Theorem amounts_do_not_change_dates
    (st1 st2 : State.t) (date : Date) (p1 p2 t r1 r2 m : Q) (ppy : Z)
    (fuel : nat)
    (V1 : Validated st1 date p1 t r1 m ppy)
    (V2 : Validated st2 date p2 t r2 m ppy)
    (Hfreq : FormData.frequency (State.formData st1)
             = FormData.frequency (State.formData st2))
    (Hfuel : (iterations (totalPeriods_of t ppy) < fuel)%nat) :
  exists st1' st2',
    calculateSchedule fuel st1 = Some st1' /\
    calculateSchedule fuel st2 = Some st2' /\
    ScheduleRow.date <$> State.schedule st1'
      = ScheduleRow.date <$> State.schedule st2'.
Proof.
  eexists _, _.
  split; [by apply (validated_calculateSchedule _ _ _ _ _ _ _ V1) |].
  split; [by apply (validated_calculateSchedule _ _ _ _ _ _ _ V2) |].
  cbn [State.schedule]. unfold schedule_of. by rewrite !rows_dates, Hfreq.
Qed.

Lemma amounts_do_not_change_dates_witness :
  exists st1' st2',
    calculateSchedule 13 moratorium_0_loan = Some st1' /\
    calculateSchedule 13 reference_loan = Some st2' /\
    ScheduleRow.date <$> State.schedule st1'
      = ScheduleRow.date <$> State.schedule st2'.
Proof.
  apply (amounts_do_not_change_dates moratorium_0_loan reference_loan
           jan_1_2024 1000 100000 1 12 12 0 12 13).
  - exact moratorium_0_loan_validated.
  - exact reference_loan_validated.
  - reflexivity.
  - vm_compute. lia.
Defined.

(** ** A moratorium that is not a number *)

Lemma add_NaN_r (a : number) : add a NaN = NaN.
Proof. by destruct a. Qed.

Lemma setMonth_NaN (t : Date) : setMonth t NaN = InvalidDate.
Proof. by destruct t. Qed.

Lemma dates_from_all_invalid (f : string) (ppy : Z) (n : nat) :
  periodsPerYear_table !! f = Some (of_Z ppy) ->
  Forall (fun d => d = InvalidDate) (dates_from n f InvalidDate).
Proof.
  intros Hf. apply Forall_lookup. intros i d H.
  by apply (dates_from_invalid f ppy n Hf i).
Qed.

(** X13: when the form passes the validator, a date is picked, the
    frequency is one of the four listed ones, the tenure is a finite
    number above 0 whose period count is at most [max_periods], and the
    moratorium converts to NaN (which the validator lets through), the
    call stores a schedule of the usual length, the period count
    [tenure * periodsPerYear] of the code rounded up to a whole number,
    in which every date is an invalid date. *)
Theorem nan_moratorium_invalid_dates (fuel : nat) (st : State.t)
    (date : Date) (t : Q) (ppy : Z)
    (Hdate : State.date st = Some date)
    (Hvalid : newErrors (State.formData st) = ∅)
    (Htenure : Number (FormData.tenure (State.formData st)) = Num t)
    (Hpos : (0 < t)%Q)
    (Hmor : Number (FormData.moratorium (State.formData st)) = NaN)
    (Hfreq : periodsPerYear_table !! FormData.frequency (State.formData st)
             = Some (of_Z ppy))
    (Hperiods : le (totalPeriods_of t ppy) (of_Z max_periods) = true)
    (Hfuel : (iterations (totalPeriods_of t ppy) < fuel)%nat) :
  exists st' T,
    mul (Num t) (of_Z ppy) = Num T /\
    calculateSchedule fuel st = Some st' /\
    State.errors st' = ∅ /\
    length (State.schedule st') = Z.to_nat (Qceiling T) /\
    State.schedule st' <> [] /\
    Forall (fun row => ScheduleRow.date row = InvalidDate)
      (State.schedule st').
Proof.
  pose proof (table_ppy _ _ Hfreq) as Hppy.
  destruct (totalPeriods_pos t ppy) as [Hinf | (T & HT & HTpos)];
    [by eapply Number_on_grid | done | lia | |].
  { by rewrite Hinf in Hperiods. }
  rewrite HT in Hperiods, Hfuel. apply le_Num in Hperiods.
  unfold iterations in Hfuel.
  assert (0 < Qceiling T <= max_periods) as [Hc0 Hcmax].
  { split; [by apply inject_Z_lt_ceiling |].
    rewrite <- (Qceiling_Z max_periods). by apply Qceiling_resp_le. }
  unfold calculateSchedule, validateForm.
  rewrite Hvalid, map_size_empty. cbn [Nat.eqb negb].
  cbn [State.formData State.setLoading State.setErrors State.date].
  rewrite Hdate, Htenure, Hmor. unfold lookup_periodsPerYear. rewrite Hfreq.
  destruct (mul_PInf_ppy _ _ Hfreq) as [_ ->].
  cbn [ToNumber]. rewrite add_NaN_r, setMonth_NaN.
  fold (totalPeriods_of t ppy). rewrite HT.
  rewrite (schedule_loop_rows _ _ _ _ (Z.to_nat (Qceiling T)));
    [| lia | unfold max_periods in Hcmax; lia | f_equal; lia
     | cbn [length]; unfold max_periods in *; lia | exact Hfuel].
  eexists _, T. split; [reflexivity |]. split; [reflexivity |].
  cbn [State.errors State.schedule State.setLoading State.setSchedule app].
  split; [done |]. split; [apply rows_length |]. split.
  - destruct (Z.to_nat (Qceiling T)) eqn:Hn; [lia | done].
  - apply (proj1 (Forall_fmap ScheduleRow.date (fun d => d = InvalidDate) _)).
    rewrite rows_dates. by apply (dates_from_all_invalid _ ppy).
Qed.

Lemma nan_moratorium_invalid_dates_witness :
  exists st' T,
    mul (Num 1) (of_Z 12) = Num T /\
    calculateSchedule 13 non_numeric_moratorium = Some st' /\
    State.errors st' = ∅ /\
    length (State.schedule st') = Z.to_nat (Qceiling T) /\
    State.schedule st' <> [] /\
    Forall (fun row => ScheduleRow.date row = InvalidDate)
      (State.schedule st').
Proof.
  apply (nan_moratorium_invalid_dates 13 non_numeric_moratorium
           jan_1_2024 1 12); try reflexivity.
  vm_compute. lia.
Defined.

(** ** Payment, interest and principal part under rounding *)

Lemma mul_on_grid (a b : number) (c : Q) : mul a b = Num c -> on_grid c.
Proof.
  destruct a as [| | | x], b as [| | | y]; try done; cbn [mul].
  - unfold inf_signed. by repeat destruct (_ : bool).
  - unfold inf_signed. by repeat destruct (_ : bool).
  - unfold inf_signed. by repeat destruct (_ : bool).
  - unfold inf_signed. by repeat destruct (_ : bool).
  - apply round64_on_grid.
Qed.

Lemma div_on_grid (a b : number) (c : Q) : div a b = Num c -> on_grid c.
Proof.
  destruct a as [| | | x], b as [| | | y]; try done; cbn [div].
  - by destruct (is_neg y).
  - by destruct (is_neg y).
  - intros H. injection H as <-. apply on_grid_0.
  - intros H. injection H as <-. apply on_grid_0.
  - destruct (is_zero y); [| apply round64_on_grid].
    unfold inf_signed. by repeat destruct (_ : bool).
Qed.

(** In every row the payment is [emi], and when payment, interest and
    principal part are finite, interest and principal part add up to
    the payment up to the rounding of the one subtraction. *)
Lemma rows_payment_split (f : string) (pr emi : number) (n : nat) :
  (forall e, emi = Num e -> on_grid e) ->
  forall b d,
    Forall (fun row =>
              ScheduleRow.payment row = emi /\
              forall e i pp,
                ScheduleRow.payment row = Num e ->
                ScheduleRow.interest row = Num i ->
                ScheduleRow.principal row = Num pp ->
                (Qabs (i + pp - e) <= Qabs pp * (1 # 2 ^ 53))%Q)
      (rows n f pr emi b d).
Proof.
  intros Hemi. induction n as [| n IH]; intros b d; [constructor |].
  rewrite rows_S. constructor; [| apply IH].
  cbn [ScheduleRow.payment ScheduleRow.interest ScheduleRow.principal].
  split; [done |]. intros e i pp He Hi Hpp.
  rewrite He, Hi in Hpp. cbn [sub neg add] in Hpp.
  pose proof (round64_error (e + - i) pp
                (on_grid_plus _ _ (Hemi e He)
                   (on_grid_opp _ (mul_on_grid _ _ _ Hi))) Hpp) as Herr.
  assert (i + pp - e == pp - (e + - i))%Q as -> by ring. exact Herr.
Qed.

(** X14: for validated input every period carries the same payment, the
    payment [calculateSchedule] computed before the loop, and whenever
    payment, interest and principal part of a period are finite,
    interest plus principal part differs from the payment by at most
    [2 ^ -53] of the principal part. *)
Theorem payment_split_within_rounding
    (st : State.t) (date : Date) (p t r m : Q) (ppy : Z) (fuel : nat)
    (V : Validated st date p t r m ppy)
    (Hfuel : (iterations (totalPeriods_of t ppy) < fuel)%nat) :
  exists st',
    calculateSchedule fuel st = Some st' /\
    Forall (fun row =>
              ScheduleRow.payment row = emi_of p t r ppy /\
              forall e i pp,
                ScheduleRow.payment row = Num e ->
                ScheduleRow.interest row = Num i ->
                ScheduleRow.principal row = Num pp ->
                (Qabs (i + pp - e) <= Qabs pp * (1 # 2 ^ 53))%Q)
      (State.schedule st').
Proof.
  eexists. split; [by apply validated_calculateSchedule |].
  cbn [State.schedule]. apply rows_payment_split.
  intros e He. unfold emi_of, compute_emi in He. by apply div_on_grid in He.
Qed.

Lemma payment_split_within_rounding_witness :
  exists st',
    calculateSchedule 13 reference_loan = Some st' /\
    Forall (fun row =>
              ScheduleRow.payment row = emi_of 100000 1 12 12 /\
              forall e i pp,
                ScheduleRow.payment row = Num e ->
                ScheduleRow.interest row = Num i ->
                ScheduleRow.principal row = Num pp ->
                (Qabs (i + pp - e) <= Qabs pp * (1 # 2 ^ 53))%Q)
      (State.schedule st').
Proof.
  apply (payment_split_within_rounding reference_loan jan_1_2024
           100000 1 12 0 12 13).
  - exact reference_loan_validated.
  - vm_compute. lia.
Defined.
(** ** Export *)

Lemma digit_val_digit_char (d : Z) :
  0 <= d < 10 -> digit_val (digit_char d) = Some d.
Proof.
  intros H.
  assert (d = 0 \/ d = 1 \/ d = 2 \/ d = 3 \/ d = 4 \/ d = 5 \/ d = 6 \/
          d = 7 \/ d = 8 \/ d = 9) as Hc by lia.
  repeat destruct Hc as [-> | Hc]; try reflexivity. by subst d.
Qed.

Lemma is_digit_digit_char (d : Z) : 0 <= d < 10 -> is_digit 10 (digit_char d) = true.
Proof.
  intros H. unfold is_digit. rewrite digit_val_digit_char by done.
  apply Z.ltb_lt. lia.
Qed.

Lemma digits_value_snoc (l : list ascii) (c : ascii) :
  digits_value 10 (l ++ [c]) = digits_value 10 l * 10 + default 0 (digit_val c).
Proof. unfold digits_value. by rewrite fold_left_app. Qed.

Lemma digits_rev_spec (fuel : nat) :
  forall n, 0 <= n < 10 ^ Z.of_nat fuel ->
    digits_value 10 (rev (digits_rev fuel n)) = n /\
    forallb (is_digit 10) (rev (digits_rev fuel n)) = true /\
    ((0 < fuel)%nat -> digits_rev fuel n <> []).
Proof.
  induction fuel as [| fuel IH]; intros n Hn.
  - change (10 ^ Z.of_nat 0) with 1 in Hn.
    assert (n = 0) as -> by lia. split; [done |]. split; [done | lia].
  - cbn [digits_rev]. destruct (Z.ltb_spec n 10) as [Hlt | Hge].
    + cbn [rev app]. split; [| split; [| done]].
      * unfold digits_value. cbn [fold_left].
        rewrite digit_val_digit_char by lia. cbn. lia.
      * cbn [forallb]. rewrite is_digit_digit_char by lia. done.
    + assert (0 <= n / 10 < 10 ^ Z.of_nat fuel) as Hq.
      { rewrite Nat2Z.inj_succ, Z.pow_succ_r in Hn by lia.
        split; [apply Z.div_pos; lia |].
        apply Z.div_lt_upper_bound; lia. }
      destruct (IH _ Hq) as (Hv & Hd & _).
      pose proof (Z.mod_pos_bound n 10 ltac:(lia)) as Hm.
      cbn [rev]. split; [| split; [| done]].
      * rewrite digits_value_snoc, Hv, digit_val_digit_char by lia.
        cbn [from_option id]. pose proof (Z.div_mod n 10 ltac:(lia)). lia.
      * rewrite forallb_app, Hd. cbn [forallb].
        rewrite is_digit_digit_char by lia. done.
Qed.

Lemma decimal_digits_spec (n : Z) :
  0 <= n ->
  digits_value 10 (decimal_digits n) = n /\
  forallb (is_digit 10) (decimal_digits n) = true /\
  decimal_digits n <> [].
Proof.
  intros Hn. unfold decimal_digits.
  destruct (digits_rev_spec (S (Z.to_nat (Z.log2 n))) n) as (Hv & Hd & Hne).
  - split; [done |]. rewrite Nat2Z.inj_succ, Z2Nat.id by apply Z.log2_nonneg.
    destruct (Z.eq_dec n 0) as [-> | Hpos]; [by vm_compute |].
    pose proof (Z.log2_spec n ltac:(lia)) as [_ Hlt].
    eapply Z.lt_le_trans; [exact Hlt |].
    apply Z.pow_le_mono_l. lia.
  - split; [done |]. split; [done |].
    intros Hnil. apply Hne; [lia |]. by rewrite <- (rev_involutive (digits_rev _ _)), Hnil.
Qed.

(** *** Reading a rendered decimal back *)

Lemma take_while_app_stop (f : ascii -> bool) (a b : list ascii) (c : ascii) :
  forallb f a = true -> f c = false ->
  take_while f (a ++ c :: b) = a /\ drop_while f (a ++ c :: b) = c :: b.
Proof.
  intros Ha Hc. induction a as [| x a IH]; cbn.
  - by rewrite Hc.
  - cbn in Ha. apply andb_true_iff in Ha as [-> Ha].
    destruct (IH Ha) as [-> ->]. done.
Qed.

Lemma take_while_all (f : ascii -> bool) (a : list ascii) :
  forallb f a = true -> take_while f a = a /\ drop_while f a = [].
Proof.
  intros Ha. induction a as [| x a IH]; cbn; [done |].
  cbn in Ha. apply andb_true_iff in Ha as [-> Ha].
  destruct (IH Ha) as [-> ->]. done.
Qed.

Lemma drop_while_head (f : ascii -> bool) (c : ascii) (l : list ascii) :
  f c = false -> drop_while f (c :: l) = c :: l.
Proof. intros H. cbn. by rewrite H. Qed.

Lemma trim_no_ws (l : list ascii) :
  forallb (fun c => negb (is_ws c)) l = true -> trim l = l.
Proof.
  intros H. unfold trim.
  assert (forall l', forallb (fun c => negb (is_ws c)) l' = true ->
                     drop_while is_ws l' = l') as Hdrop.
  { intros [| c l'] Hl; [done |]. cbn in Hl.
    apply andb_true_iff in Hl as [Hc _]. apply negb_true_iff in Hc.
    by apply drop_while_head. }
  rewrite (Hdrop l H), Hdrop, rev_involutive; [done |].
  apply forallb_forall. intros c Hc. apply in_rev in Hc.
  rewrite forallb_forall in H. by apply H.
Qed.

Lemma digits_value_zeros (j : nat) (m : list ascii) :
  digits_value 10 (replicate j "0"%char ++ m) = digits_value 10 m.
Proof.
  unfold digits_value. rewrite fold_left_app. f_equal.
  induction j as [| j IH]; [done |]. cbn [replicate fold_left]. exact IH.
Qed.

Lemma is_digit_not_ws (c : ascii) : is_digit 10 c = true -> is_ws c = false.
Proof.
  destruct c as [[] [] [] [] [] [] [] []]; try reflexivity; by vm_compute.
Qed.

Lemma digit_or_point_spec (p : ascii) :
  digit_or_point p = true ->
  is_ws p = false /\
  is_char p "x" "X" = false /\ is_char p "o" "O" = false /\
  is_char p "b" "B" = false.
Proof.
  destruct p as [[] [] [] [] [] [] [] []]; intros H; try (by vm_compute in H);
    by vm_compute.
Qed.

Lemma decimal_literal_point (a b : list ascii) :
  a <> [] -> forallb (is_digit 10) a = true -> forallb (is_digit 10) b = true ->
  decimal_literal (a ++ "."%char :: b)
  = Num (Qred (scale10 (digits_value 10 (a ++ b)) (0 - Z.of_nat (length b)))).
Proof.
  intros Hne Ha Hb. unfold decimal_literal.
  destruct (take_while_app_stop (is_digit 10) a b "." Ha eq_refl) as [-> ->].
  change (Ascii.eqb "." ".") with true. cbn iota.
  destruct (take_while_all (is_digit 10) b Hb) as [-> ->].
  destruct a as [| c a]; [done |]. reflexivity.
Qed.

Lemma unsigned_literal_digit (c : ascii) (t : list ascii) :
  is_digit 10 c = true -> unsigned_literal (c :: t) = decimal_literal (c :: t).
Proof.
  intros Hc. unfold unsigned_literal. case_bool_decide as H; [| done].
  injection H as -> _. by vm_compute in Hc.
Qed.

Lemma StringMV_digit (c : ascii) (t : list ascii) :
  is_digit 10 c = true -> forallb digit_or_point t = true ->
  StringMV (string_of_list_ascii (c :: t)) = decimal_literal (c :: t).
Proof.
  intros Hc Ht. unfold StringMV.
  rewrite list_ascii_of_string_of_list_ascii, trim_no_ws.
  2:{ cbn [forallb]. rewrite (is_digit_not_ws c Hc). cbn [negb andb].
      apply forallb_forall. intros x Hx. rewrite forallb_forall in Ht.
      by destruct (digit_or_point_spec x (Ht x Hx)) as (-> & _). }
  rewrite <- (unsigned_literal_digit c t Hc).
  destruct t as [| p ds].
  - destruct c as [[] [] [] [] [] [] [] []]; try (by vm_compute in Hc);
      reflexivity.
  - cbn [forallb] in Ht. apply andb_true_iff in Ht as [Hp _].
    destruct (digit_or_point_spec p Hp) as (_ & Hx & Ho & Hb).
    destruct c as [[] [] [] [] [] [] [] []]; try (by vm_compute in Hc);
      cbn [Ascii.eqb Bool.eqb]; rewrite ?Hx, ?Ho, ?Hb; reflexivity.
Qed.

Lemma StringMV_minus (cs : list ascii) :
  forallb digit_or_point cs = true ->
  StringMV (string_of_list_ascii ("-"%char :: cs)) = neg (unsigned_literal cs).
Proof.
  intros Ht. unfold StringMV.
  rewrite list_ascii_of_string_of_list_ascii, trim_no_ws; [reflexivity |].
  cbn [forallb]. change (negb (is_ws "-")) with true. cbn [andb].
  apply forallb_forall. intros x Hx. rewrite forallb_forall in Ht.
  by destruct (digit_or_point_spec x (Ht x Hx)) as (-> & _).
Qed.

Lemma is_digit_digit_or_point (l : list ascii) :
  forallb (is_digit 10) l = true -> forallb digit_or_point l = true.
Proof.
  intros H. apply forallb_forall. intros x Hx.
  rewrite forallb_forall in H. unfold digit_or_point. by rewrite (H x Hx).
Qed.

Lemma forallb_zeros (j : nat) : forallb (is_digit 10) (replicate j "0"%char) = true.
Proof. induction j as [| j IH]; [done |]. cbn [replicate forallb]. by rewrite IH. Qed.

(** The digits of [toFixed(2)]: at least one before the point and two
    after it, with the value of the rounded number of hundredths. *)
Lemma fixed_digits_spec (n : Z) :
  0 <= n ->
  let m := replicate (2 + 1 - length (decimal_digits n)) "0"%char
             ++ decimal_digits n in
  let a := take (length m - 2) m in
  let b := drop (length m - 2) m in
  a <> [] /\ length b = 2%nat /\
  forallb (is_digit 10) a = true /\ forallb (is_digit 10) b = true /\
  digits_value 10 (a ++ b) = n.
Proof.
  intros Hn m a b.
  destruct (decimal_digits_spec n Hn) as (Hv & Hd & Hne).
  assert (3 <= length m)%nat as Hlen.
  { unfold m. rewrite length_app, length_replicate. lia. }
  assert (forallb (is_digit 10) m = true) as Hm.
  { unfold m. by rewrite forallb_app, forallb_zeros, Hd. }
  assert (a ++ b = m) as Hab by apply take_drop.
  rewrite <- Hab, forallb_app in Hm. apply andb_true_iff in Hm as [Ha Hb].
  split; [| split; [| split; [| split]]]; try done.
  - intros Hnil. assert (length a = 0%nat) as H0 by (by rewrite Hnil).
    unfold a in H0. rewrite length_take in H0. lia.
  - unfold b. rewrite length_drop. lia.
  - rewrite Hab. unfold m. by rewrite digits_value_zeros.
Qed.

Lemma Qmake_100 (n : Z) : ((n # 100) * 100 == inject_Z n)%Q.
Proof. unfold Qeq, Qmult, inject_Z. cbn. lia. Qed.

Lemma toFixed_finite (q : Q) :
  (Qabs q < inject_Z (10 ^ 21))%Q ->
  exists y,
    two_decimals (toFixed 2 (Num q)) /\
    StringMV (toFixed 2 (Num q)) = Num y /\
    (Qabs (y - q) <= 1 # 200)%Q.
Proof.
  intros Hq. unfold toFixed.
  assert (Qle_bool (inject_Z (10 ^ 21)) (Qabs q) = false) as ->
    by (by apply Qle_bool_false).
  set (n := Qfloor (Qabs q * inject_Z (10 ^ Z.of_nat 2) + (1 # 2))).
  assert (0 <= n) as Hn.
  { change 0 with (Qfloor 0). apply Qfloor_resp_le.
    pose proof (Qabs_nonneg q). change (inject_Z (10 ^ Z.of_nat 2)) with 100%Q.
    lra. }
  pose proof (Qfloor_le (Qabs q * inject_Z (10 ^ Z.of_nat 2) + (1 # 2))) as Hlo.
  pose proof (Qlt_floor (Qabs q * inject_Z (10 ^ Z.of_nat 2) + (1 # 2))) as Hhi.
  fold n in Hlo, Hhi. rewrite inject_Z_plus in Hhi.
  change (inject_Z (10 ^ Z.of_nat 2)) with 100%Q in Hlo, Hhi.
  change (inject_Z 1) with 1%Q in Hhi. clearbody n.
  destruct (fixed_digits_spec n Hn) as (Hne & Hlb & Ha & Hb & Hv).
  cbn zeta in Hne, Hlb, Ha, Hb, Hv.
  set (m := replicate (2 + 1 - length (decimal_digits n)) "0"%char
              ++ decimal_digits n) in *.
  set (a := take (length m - 2) m) in *.
  set (b := drop (length m - 2) m) in *.
  assert (decimal_literal (a ++ "."%char :: b) = Num (Qred (n # 100))) as Hlit.
  { rewrite decimal_literal_point, Hv, Hlb by done. reflexivity. }
  assert (forallb digit_or_point (a ++ "."%char :: b) = true) as Hall.
  { rewrite forallb_app. cbn [forallb].
    by rewrite !is_digit_digit_or_point. }
  pose proof (Qmake_100 n) as Hval.
  destruct (is_neg q) eqn:Hneg.
  - eexists. split; [| split].
    + exists ["-"%char], a, b. repeat split; auto.
    + cbn [app]. rewrite StringMV_minus by done.
      destruct a as [| c a']; [done |]. cbn [forallb] in Ha.
      apply andb_true_iff in Ha as [Hc _].
      change ((c :: a') ++ "."%char :: b) with (c :: (a' ++ "."%char :: b)) in *.
      rewrite unsigned_literal_digit, Hlit by done. reflexivity.
    + unfold is_neg in Hneg. apply negb_true_iff, Qle_bool_false in Hneg.
      rewrite Qabs_neg in Hlo, Hhi by lra.
      apply Qabs_Qle_condition. rewrite Qred_correct.
      revert Hlo Hhi Hval. generalize (inject_Z n), (n # 100)%Q.
      intros z y Hlo Hhi Hval. split; lra.
  - eexists. split; [| split].
    + exists [], a, b. repeat split; auto.
    + cbn [app].
      destruct a as [| c a']; [done |]. cbn [forallb] in Ha, Hall.
      apply andb_true_iff in Ha as [Hc _].
      change ((c :: a') ++ "."%char :: b) with (c :: (a' ++ "."%char :: b)) in *.
      cbn [forallb] in Hall. apply andb_true_iff in Hall as [_ Hall].
      rewrite StringMV_digit, Hlit by done. reflexivity.
    + unfold is_neg in Hneg. apply negb_false_iff, Qle_bool_iff in Hneg.
      rewrite Qabs_pos in Hlo, Hhi by lra.
      apply Qabs_Qle_condition. rewrite Qred_correct.
      revert Hlo Hhi Hval. generalize (inject_Z n), (n # 100)%Q.
      intros z y Hlo Hhi Hval. split; lra.
Qed.

(** What [toFixed(2)] writes is the text of the amount. *)
Lemma toFixed_amount_text (x : number) : amount_text (toFixed 2 x) x.
Proof.
  split; [done |]. intros Hx. destruct x as [| | | q].
  - split; [by vm_compute | done].
  - split; [by vm_compute | done].
  - split; [by vm_compute | done].
  - destruct (toFixed_finite q Hx) as (y & Htwo & Hy & Hclose).
    split; [| done]. rewrite Hy. exact Hclose.
Qed.

(** [Number] of a text with two fraction digits that [toFixed(2)]
    wrote need not be within half a hundredth of the number written:
    0.125 is written 0.13, whose decimal value is exactly half a
    hundredth away, and 0.13 is read as the binary64 number nearest to
    it, which is farther. *)
Lemma toFixed_then_Number_exceeds_half_cent :
  toFixed 2 (Num (1 # 8)) = "0.13"%string /\
  StringMV "0.13" = Num (13 # 100) /\
  exists y, Number "0.13" = Num y /\ (1 # 200 < y - (1 # 8))%Q.
Proof.
  split; [vm_compute; reflexivity |]. split; [vm_compute; reflexivity |].
  eexists. split; [vm_compute; reflexivity |]. by vm_compute.
Qed.

Lemma export_row_spec (format : Date -> option string) (row : ScheduleRow.t)
    (d : string) :
  format (ScheduleRow.date row) = Some d ->
  export_row format row
  = Some [d;
          toFixed 2 (ScheduleRow.payment row);
          toFixed 2 (ScheduleRow.interest row);
          toFixed 2 (ScheduleRow.principal row);
          toFixed 2 (ScheduleRow.balance row)].
Proof. intros H. unfold export_row. by rewrite H. Qed.

(** X12: when the date formatter does not throw on the dates of the
    schedule, [csvData] is the header row followed by exactly the rows
    of the PDF table, one per period and in the order of the schedule;
    each row has five cells, the formatted date and what [toFixed(2)]
    makes of the payment, interest, principal part and balance of its
    period; for an amount below 10^21 in magnitude that is a decimal
    with two fraction digits at most half a hundredth away from the
    amount. *)
Theorem csvData_rows (format : Date -> option string)
    (schedule : list ScheduleRow.t)
    (H : Forall (fun row => is_Some (format (ScheduleRow.date row)))
           schedule) :
  exists body,
    csvData format schedule = Some (csv_header :: body) /\
    tableData format schedule = Some body /\
    length body = length schedule /\
    forall (i : nat) row,
      schedule !! i = Some row ->
      exists d pay int pri bal,
        body !! i = Some [d; pay; int; pri; bal] /\
        format (ScheduleRow.date row) = Some d /\
        amount_text pay (ScheduleRow.payment row) /\
        amount_text int (ScheduleRow.interest row) /\
        amount_text pri (ScheduleRow.principal row) /\
        amount_text bal (ScheduleRow.balance row).
Proof.
  assert (exists body, tableData format schedule = Some body /\
            Forall2 (fun row cells => export_row format row = Some cells)
              schedule body) as (body & Hbody & Hall).
  { unfold tableData. induction H as [| row rest [d Hd] _ IH].
    - exists []. split; [done | constructor].
    - destruct IH as (body & Hbody & Hall).
      eexists (_ :: body). split.
      + cbn [mapM]. rewrite (export_row_spec _ _ _ Hd), Hbody. reflexivity.
      + constructor; [| done]. by apply export_row_spec. }
  exists body. split; [unfold csvData; by rewrite Hbody |].
  split; [done |]. split; [symmetry; by eapply Forall2_length |].
  intros i row Hrow.
  destruct (Forall2_lookup_l _ _ _ _ _ Hall Hrow) as (cells & Hcells & Hexp).
  rewrite Forall_forall in H.
  destruct (H row) as [d Hd]; [by eapply list_elem_of_lookup_2 |].
  rewrite (export_row_spec _ _ _ Hd) in Hexp. injection Hexp as <-.
  eexists d, _, _, _, _. split; [exact Hcells |]. split; [exact Hd |].
  refine (conj _ (conj _ (conj _ _))); apply toFixed_amount_text.
Qed.

Lemma quarterly_schedule_formats :
  Forall (fun row => is_Some (format_PP (ScheduleRow.date row)))
    (schedule_of quarterly_loan jan_1_2024 1000 1 8 0 4).
Proof.
  let l := eval vm_compute in
             (schedule_of quarterly_loan jan_1_2024 1000 1 8 0 4) in
  replace (schedule_of quarterly_loan jan_1_2024 1000 1 8 0 4) with l
    by (vm_compute; reflexivity).
  repeat (apply List.Forall_cons;
          [eexists; vm_compute; reflexivity |]).
  apply List.Forall_nil.
Qed.

Lemma csvData_rows_witness :
  exists body,
    csvData format_PP (schedule_of quarterly_loan jan_1_2024 1000 1 8 0 4)
      = Some (csv_header :: body) /\
    tableData format_PP (schedule_of quarterly_loan jan_1_2024 1000 1 8 0 4)
      = Some body /\
    length body
      = length (schedule_of quarterly_loan jan_1_2024 1000 1 8 0 4) /\
    forall (i : nat) row,
      schedule_of quarterly_loan jan_1_2024 1000 1 8 0 4 !! i = Some row ->
      exists d pay int pri bal,
        body !! i = Some [d; pay; int; pri; bal] /\
        format_PP (ScheduleRow.date row) = Some d /\
        amount_text pay (ScheduleRow.payment row) /\
        amount_text int (ScheduleRow.interest row) /\
        amount_text pri (ScheduleRow.principal row) /\
        amount_text bal (ScheduleRow.balance row).
Proof.
  apply (csvData_rows format_PP
           (schedule_of quarterly_loan jan_1_2024 1000 1 8 0 4)).
  exact quarterly_schedule_formats.
Defined.

(** The first rows of the CSV file for 1000 over one year, quarterly,
    at 8%. *)
Lemma quarterly_csv :
  csvData format_PP (schedule_of quarterly_loan jan_1_2024 1000 1 8 0 4)
  = Some [ ["Date"; "Payment"; "Interest"; "Principal"; "Balance"];
           ["Jan 1, 2024"; "262.62"; "20.00"; "242.62"; "757.38"];
           ["Apr 1, 2024"; "262.62"; "15.15"; "247.48"; "509.90"];
           ["Jul 1, 2024"; "262.62"; "10.20"; "252.43"; "257.47"];
           ["Oct 1, 2024"; "262.62"; "5.15"; "257.47"; "0.00"] ]%string.
Proof. vm_compute. reflexivity. Qed.
